(** * Scheduler events of the kraken torrent client

    A shallow embedding of [client/torrent/scheduler/events.go]: the
    [Apply] methods of the events that move the [Scheduler] from one state
    to the next, and the properties they have.

    The event loop applies one event at a time and is the only accessor of
    the Scheduler while an event applies, so each [Apply] is a sequential
    program over the Scheduler's fields.  It is embedded as a computation in
    a small monad that threads the Scheduler, records what the method does to
    the outside (collaborator calls, log lines, goroutines started, channel
    sends, connections closed) and can panic on a nil dereference. *)

From stdpp Require Import base option list gmap strings.
From Stdlib Require Import ZArith Lia.

Local Open Scope Z_scope.

(** ** Data *)

(** [torlib.PeerID] and [torlib.InfoHash] are fixed-width byte arrays, used
    only as opaque comparable keys; they are the numbers the bytes spell. *)
Definition PeerID : Type := N.
Definition InfoHash : Type := N.

(** [time.Time] is an instant and [time.Duration] a span, both counted in
    nanoseconds. *)
Definition Time : Type := Z.
Definition Duration : Type := Z.

(** A [Duration] is an [int64]: the largest and the smallest one. *)
Definition maxDuration : Duration := 9223372036854775807.
Definition minDuration : Duration := -9223372036854775808.

(** [t.Sub(u)]: the difference [t - u], or the largest (smallest)
    [Duration] when the difference is above (below) every [Duration]. *)
Definition Time_Sub (t u : Time) : Duration :=
  Z.max minDuration (Z.min maxDuration (t - u)).

(** Modelled from the spec: [timeutil.MostRecent] is not part of this file;
    the spec calls it the max of its arguments.  The zero [time.Time] is
    the result for no argument. *)
Definition MostRecent (ts : list Time) : Time :=
  match ts with
  | [] => 0
  | t :: ts' => foldl Z.max t ts'
  end.

(** [storage.Torrent], seen through [InfoHash()]. *)
Record Torrent : Type := {
  Torrent_Name : string;
  Torrent_InfoHash : InfoHash;
}.

(** [*conn], seen through what the events read: the pair it is for, its
    creation time, [LastGoodPieceReceived()] and [LastPieceSent()]. *)
Record conn : Type := {
  conn_PeerID : PeerID;
  conn_InfoHash : InfoHash;
  conn_CreatedAt : Time;
  conn_LastGoodPieceReceived : Time;
  conn_LastPieceSent : Time;
}.

(** [*dispatcher], seen through what the events read: its torrent, its
    creation time, [LastConnRemoved()] and [Empty()].  The dispatcher's own
    goroutines change the last two between events; the record holds what
    they give while an event applies. *)
Record dispatcher : Type := {
  dispatcher_Torrent : Torrent;
  dispatcher_CreatedAt : Time;
  dispatcher_LastConnRemoved : Time;
  dispatcher_Empty : bool;
}.

(** [torlib.PeerInfo], an entry of an announce response. *)
Record PeerInfo : Type := {
  PeerInfo_PeerID : string;
  PeerInfo_IP : string;
  PeerInfo_Port : Z;
}.

(** A [chan error] is known by its identity. *)
Definition errchan : Type := nat.

(** The [torrentControl] a [*torrentControl] points to. *)
Record torrentControl : Type := {
  Dispatcher : dispatcher;
  Errors : list errchan;
  Complete : bool;
}.

(** Modelled from the spec: [newTorrentControl] is not part of this file;
    the spec constructs [{ dispatcher, Errors: [], Complete: false }]. *)
Definition newTorrentControl (d : dispatcher) : torrentControl :=
  {| Dispatcher := d; Errors := []; Complete := false |}.

(** Go's [error] values the events tell apart: [errTorrentAtCapacity] is
    compared against by name, the others only against [nil]. *)
Inductive error : Type :=
  | errTorrentAtCapacity
  | errConnAlreadyPending
  | errConnAlreadyActive
  | errConnBlacklisted
  | errOther (msg : string).

(** The fields of [Config] the events read. *)
Record Config : Type := {
  IdleConnTTL : Duration;
  ConnTTL : Duration;
  IdleSeederTTL : Duration;
}.

#[global] Instance Torrent_eq_dec : EqDecision Torrent.
Proof. solve_decision. Defined.
#[global] Instance conn_eq_dec : EqDecision conn.
Proof. solve_decision. Defined.
#[global] Instance dispatcher_eq_dec : EqDecision dispatcher.
Proof. solve_decision. Defined.
#[global] Instance error_eq_dec : EqDecision error.
Proof. solve_decision. Defined.

(** ** What an event does to the outside *)

Inductive level : Type := DebugLevel | InfoLevel | ErrorLevel.

(** One entry per call on a collaborator (with what it returned, where the
    event looks at it), log line, goroutine started, channel send and
    connection close, in program order.  [Conn_Close c] is the call
    [c.Close()]: the [connState] hears of it only through the
    [closedConnEvent] that follows. *)
Inductive action : Type :=
  | Log (lvl : level) (msg : string)
  | Call_DeleteActive (c : conn)
  | Call_Blacklist (p : PeerID) (h : InfoHash) (r : option error)
  | Call_AddPending (p : PeerID) (h : InfoHash) (r : option error)
  | Call_InitCapacity (h : InfoHash)
  | Call_ActiveConns
  | Call_New (t : Torrent)
  | Call_Add (d : dispatcher)
  | Call_Ready (d : dispatcher)
  | Call_Done (d : dispatcher)
  | Go_initOutgoingConn (p : PeerID) (ip : string) (port : Z) (t : Torrent)
  | Chan_send_nil (errc : errchan)
  | Conn_Close (c : conn).

(** ** Collaborators

    [connState], [announceQueue] and [torlib.NewPeerID] live in other files.
    The events are embedded over any implementation of the methods they
    call. *)

Class ConnStateOps (CS : Type) : Type := {
  AddPending : PeerID → InfoHash → CS → option error * CS;
  DeleteActive : conn → CS → CS;
  Blacklist : PeerID → InfoHash → CS → option error * CS;
  ActiveConns : CS → list conn;
  InitCapacity : InfoHash → CS → CS;
}.

Class AnnounceQueueOps (AQ : Type) : Type := {
  Add : dispatcher → AQ → AQ;
  Ready : dispatcher → AQ → AQ;
  Done : dispatcher → AQ → AQ;
}.

Class TorlibOps : Type := {
  NewPeerID : string → PeerID + error;
}.

(** A [*torrentControl]. *)
Definition ptr : Type := positive.

(** How the body of a [for] loop ends: falling through or [continue], or
    [break]. *)
Inductive loop_ctl : Type := Continue | Break.

Section Events.
Context {CS AQ : Type} `{!ConnStateOps CS, !AnnounceQueueOps AQ, !TorlibOps}.

(** The [Scheduler].  [clock] holds the readings [s.clock.Now()] gives
    from here on, one per call: [clock s 0] is what the next call returns.
    [torrentControls] maps to pointers, as in the source; [heap] holds the
    [torrentControl]s they point to. *)
Record Scheduler : Type := {
  peerID : PeerID;
  config : Config;
  clock : nat → Time;
  connState : CS;
  announceQueue : AQ;
  dispatcherFactory : Torrent → dispatcher;
  torrentControls : gmap InfoHash ptr;
  heap : gmap ptr torrentControl;
}.

Definition set_connState (f : CS → CS) (s : Scheduler) : Scheduler :=
  {| peerID := peerID s; config := config s; clock := clock s;
     connState := f (connState s); announceQueue := announceQueue s;
     dispatcherFactory := dispatcherFactory s;
     torrentControls := torrentControls s; heap := heap s |}.

Definition set_announceQueue (f : AQ → AQ) (s : Scheduler) : Scheduler :=
  {| peerID := peerID s; config := config s; clock := clock s;
     connState := connState s; announceQueue := f (announceQueue s);
     dispatcherFactory := dispatcherFactory s;
     torrentControls := torrentControls s; heap := heap s |}.

Definition set_torrentControls
    (f : gmap InfoHash ptr → gmap InfoHash ptr) (s : Scheduler) : Scheduler :=
  {| peerID := peerID s; config := config s; clock := clock s;
     connState := connState s; announceQueue := announceQueue s;
     dispatcherFactory := dispatcherFactory s;
     torrentControls := f (torrentControls s); heap := heap s |}.

Definition set_heap
    (f : gmap ptr torrentControl → gmap ptr torrentControl)
    (s : Scheduler) : Scheduler :=
  {| peerID := peerID s; config := config s; clock := clock s;
     connState := connState s; announceQueue := announceQueue s;
     dispatcherFactory := dispatcherFactory s;
     torrentControls := torrentControls s; heap := f (heap s) |}.

Definition set_clock (f : (nat → Time) → (nat → Time)) (s : Scheduler)
    : Scheduler :=
  {| peerID := peerID s; config := config s; clock := f (clock s);
     connState := connState s; announceQueue := announceQueue s;
     dispatcherFactory := dispatcherFactory s;
     torrentControls := torrentControls s; heap := heap s |}.

(** ** The monad of [Apply] bodies

    A body takes the Scheduler and gives back a value, or [None] when it
    panicked, with the Scheduler it leaves and the actions it took up to
    there. *)
Definition M (A : Type) : Type :=
  Scheduler → option A * Scheduler * list action.

#[global] Instance M_ret : MRet M := λ A a s, (Some a, s, []).

#[global] Instance M_bind : MBind M := λ A B f m s,
  match m s with
  | (None, s1, t1) => (None, s1, t1)
  | (Some a, s1, t1) =>
      match f a s1 with
      | (r, s2, t2) => (r, s2, t1 ++ t2)
      end
  end.

Definition gets {A : Type} (f : Scheduler → A) : M A :=
  λ s, (Some (f s), s, []).
Definition modify (f : Scheduler → Scheduler) : M unit :=
  λ s, (Some tt, f s, []).
Definition emit (a : action) : M unit :=
  λ s, (Some tt, s, [a]).
Definition panic {A : Type} : M A := λ s, (None, s, []).

(** [for _, x := range xs { body }] and [for i := 0; i < len(xs); i++]. *)
Fixpoint for_range {A : Type} (xs : list A) (body : A → M loop_ctl)
    : M loop_ctl :=
  match xs with
  | [] => mret Continue
  | x :: xs' =>
      c ← body x;
      match c with
      | Break => mret Break
      | Continue => for_range xs' body
      end
  end.

(** *** Statements *)

(** [s.logf(...).Debug(msg)] and the like; the fields and format
    arguments are left out. *)
Definition logf (lvl : level) (msg : string) : M unit := emit (Log lvl msg).

Definition connState_DeleteActive (c : conn) : M unit :=
  emit (Call_DeleteActive c);;
  modify (set_connState (DeleteActive c)).

Definition connState_Blacklist (p : PeerID) (h : InfoHash)
    : M (option error) :=
  cs ← gets connState;
  let '(r, cs') := Blacklist p h cs in
  emit (Call_Blacklist p h r);;
  modify (set_connState (λ _, cs'));;
  mret r.

Definition connState_AddPending (p : PeerID) (h : InfoHash)
    : M (option error) :=
  cs ← gets connState;
  let '(r, cs') := AddPending p h cs in
  emit (Call_AddPending p h r);;
  modify (set_connState (λ _, cs'));;
  mret r.

Definition connState_InitCapacity (h : InfoHash) : M unit :=
  emit (Call_InitCapacity h);;
  modify (set_connState (InitCapacity h)).

Definition connState_ActiveConns : M (list conn) :=
  emit Call_ActiveConns;;
  gets (λ s, ActiveConns (connState s)).

Definition announceQueue_Add (d : dispatcher) : M unit :=
  emit (Call_Add d);;
  modify (set_announceQueue (Add d)).

Definition announceQueue_Ready (d : dispatcher) : M unit :=
  emit (Call_Ready d);;
  modify (set_announceQueue (Ready d)).

Definition announceQueue_Done (d : dispatcher) : M unit :=
  emit (Call_Done d);;
  modify (set_announceQueue (Done d)).

(** [s.clock.Now()]: the next reading, which is then behind. *)
Definition clock_Now : M Time :=
  now ← gets (λ s, clock s 0%nat);
  modify (set_clock (λ c n, c (S n)));;
  mret now.

(** [*p], panicking on a pointer to nothing. *)
Definition load (p : ptr) : M torrentControl :=
  r ← gets (λ s, heap s !! p);
  match r with
  | Some c => mret c
  | None => panic
  end.

(** [*p = c]. *)
Definition store (p : ptr) (c : torrentControl) : M unit :=
  modify (set_heap (insert p c)).

(** [&torrentControl{...}]: a pointer no live object has. *)
Definition alloc (c : torrentControl) : M ptr :=
  p ← gets (λ s, fresh (dom (heap s)));
  store p c;;
  mret p.

(** ** The events *)

(** [closedConnEvent.Apply] *)
Definition closedConnEvent_Apply (e_conn : conn) : M unit :=
  logf DebugLevel "Applying closed conn event";;
  connState_DeleteActive e_conn;;
  err ← connState_Blacklist (conn_PeerID e_conn) (conn_InfoHash e_conn);
  match err with
  | Some _ => logf InfoLevel "Error blacklisting active conn: %s"
  | None => mret tt
  end.

(** [announceResponseEvent.Apply], the body of its loop over [e.peers]:
    one peer of the response.  [ctrl] is the pointer the method found in
    [torrentControls]; [int(p.Port)] is [p.Port]. *)
Definition announceResponse_peer (e_infoHash : InfoHash) (ctrl : ptr)
    (p : PeerInfo) : M loop_ctl :=
  match NewPeerID (PeerInfo_PeerID p) with
  | inr _ =>
      logf ErrorLevel "Error creating PeerID from announce response: %s";;
      mret Continue
  | inl pid =>
      self ← gets peerID;
      if decide (pid = self) then
        (* Tracker may return our own peer. *)
        mret Continue
      else
        err ← connState_AddPending pid e_infoHash;
        match err with
        | Some err =>
            if decide (err = errTorrentAtCapacity) then
              logf InfoLevel
                "Cannot open any more connections, torrent is at capacity";;
              mret Break
            else
              logf InfoLevel "Cannot add pending conn: %s, skipping";;
              mret Continue
        | None =>
            c ← load ctrl;
            emit (Go_initOutgoingConn pid (PeerInfo_IP p) (PeerInfo_Port p)
                    (dispatcher_Torrent (Dispatcher c)));;
            mret Continue
        end
  end.

(** [announceResponseEvent.Apply] *)
Definition announceResponseEvent_Apply (e_infoHash : InfoHash)
    (e_peers : list PeerInfo) : M unit :=
  logf DebugLevel "Applying announce response event";;
  r ← gets (λ s, torrentControls s !! e_infoHash);
  match r with
  | None =>
      logf InfoLevel "Dispatcher closed after announce response received"
  | Some ctrl =>
      c ← load ctrl;
      announceQueue_Ready (Dispatcher c);;
      for_range e_peers (announceResponse_peer e_infoHash ctrl);;
      mret tt
  end.

(** [s.dispatcherFactory.New(t)] *)
Definition dispatcherFactory_New (t : Torrent) : M dispatcher :=
  emit (Call_New t);;
  gets (λ s, dispatcherFactory s t).

(** [newTorrentEvent.Apply] *)
Definition newTorrentEvent_Apply (e_torrent : Torrent) (e_errc : errchan)
    : M unit :=
  logf DebugLevel "Applying new torrent event";;
  let infoHash := Torrent_InfoHash e_torrent in
  r ← gets (λ s, torrentControls s !! infoHash);
  ctrl ← match r with
         | Some ctrl => mret ctrl
         | None =>
             d ← dispatcherFactory_New e_torrent;
             ctrl ← alloc (newTorrentControl d);
             modify (set_torrentControls (insert infoHash ctrl));;
             c ← load ctrl;
             announceQueue_Add (Dispatcher c);;
             connState_InitCapacity infoHash;;
             mret ctrl
         end;
  c ← load ctrl;
  if Complete c then
    emit (Chan_send_nil e_errc)
  else
    store ctrl {| Dispatcher := Dispatcher c;
                  Errors := Errors c ++ [e_errc];
                  Complete := Complete c |}.

(** [completedDispatcherEvent.Apply] *)
Definition completedDispatcherEvent_Apply (e_dispatcher : dispatcher)
    : M unit :=
  logf DebugLevel "Applying completed dispatcher event";;
  announceQueue_Done e_dispatcher;;
  r ← gets (λ s, torrentControls s
                   !! Torrent_InfoHash (dispatcher_Torrent e_dispatcher));
  match r with
  | None => logf ErrorLevel "Completed dispatcher not found"
  | Some ctrl =>
      c ← load ctrl;
      for_range (Errors c) (λ errc, emit (Chan_send_nil errc);; mret Continue);;
      c ← load ctrl;
      store ctrl {| Dispatcher := Dispatcher c;
                    Errors := Errors c;
                    Complete := true |}
  end.

(** [preemptionTickEvent.Apply], the body of its first loop: one active
    conn. *)
Definition preemption_conn (c : conn) : M loop_ctl :=
  let lastProgress :=
    MostRecent [conn_CreatedAt c; conn_LastGoodPieceReceived c;
                conn_LastPieceSent c] in
  now ← clock_Now;
  cfg ← gets config;
  if decide (Time_Sub now lastProgress > IdleConnTTL cfg) then
    logf InfoLevel "Closing idle conn";;
    emit (Conn_Close c);;
    mret Continue
  else
    now ← clock_Now;
    cfg ← gets config;
    if decide (Time_Sub now (conn_CreatedAt c) > ConnTTL cfg) then
      logf InfoLevel "Closing expired conn";;
      emit (Conn_Close c);;
      mret Continue
    else mret Continue.

(** [preemptionTickEvent.Apply], the body of its second loop: one entry
    of [torrentControls]. *)
Definition preemption_torrent (kv : InfoHash * ptr) : M loop_ctl :=
  let '(infoHash, ctrl) := kv in
  c ← load ctrl;
  if Complete c && dispatcher_Empty (Dispatcher c) then
    let becameIdle :=
      MostRecent [dispatcher_CreatedAt (Dispatcher c);
                  dispatcher_LastConnRemoved (Dispatcher c)] in
    now ← clock_Now;
    cfg ← gets config;
    if decide (Time_Sub now becameIdle > IdleSeederTTL cfg) then
      logf InfoLevel "Removing idle torrent";;
      modify (set_torrentControls (delete infoHash));;
      mret Continue
    else mret Continue
  else mret Continue.

(** [preemptionTickEvent.Apply].  Go visits the entries of a map in no
    fixed order, and an entry deleted while it is the current one is
    simply gone: the second loop runs over the entries the map has when
    the loop starts. *)
Definition preemptionTickEvent_Apply : M unit :=
  logf DebugLevel "Applying preemption tick event";;
  conns ← connState_ActiveConns;
  for_range conns preemption_conn;;
  tcs ← gets (λ s, map_to_list (torrentControls s));
  for_range tcs preemption_torrent;;
  mret tt.

(** The events embedded here, and [e.Apply(s)]. *)
Inductive event : Type :=
  | closedConnEvent (c : conn)
  | announceResponseEvent (infoHash : InfoHash) (peers : list PeerInfo)
  | newTorrentEvent (torrent : Torrent) (errc : errchan)
  | completedDispatcherEvent (d : dispatcher)
  | preemptionTickEvent.

Definition Apply (e : event) : M unit :=
  match e with
  | closedConnEvent c => closedConnEvent_Apply c
  | announceResponseEvent h ps => announceResponseEvent_Apply h ps
  | newTorrentEvent t errc => newTorrentEvent_Apply t errc
  | completedDispatcherEvent d => completedDispatcherEvent_Apply d
  | preemptionTickEvent => preemptionTickEvent_Apply
  end.

(** The events of a list applied one after the other, as [eventLoop.Run]
    does with the events it receives. *)
Fixpoint Run (es : list event) : M unit :=
  match es with
  | [] => mret tt
  | e :: es' => Apply e;; Run es'
  end.

End Events.

Arguments Scheduler : clear implicits.

(** ** Reading a trace *)

(** The channels [nil] was sent on, in order. *)
Definition chan_sends (tr : list action) : list errchan :=
  omap (λ a, match a with Chan_send_nil e => Some e | _ => None end) tr.

(** The outgoing dials started, in order. *)
Definition dials (tr : list action) : list (PeerID * string * Z * Torrent) :=
  omap (λ a, match a with
             | Go_initOutgoingConn p ip port t => Some (p, ip, port, t)
             | _ => None
             end) tr.

(** The peers [AddPending] was called for, in order. *)
Definition add_pending_calls (tr : list action) : list PeerID :=
  omap (λ a, match a with Call_AddPending p _ _ => Some p | _ => None end) tr.

(** The conns closed, in order. *)
Definition closes (tr : list action) : list conn :=
  omap (λ a, match a with Conn_Close c => Some c | _ => None end) tr.

(** The dispatchers [Ready] was called for, in order. *)
Definition ready_calls (tr : list action) : list dispatcher :=
  omap (λ a, match a with Call_Ready d => Some d | _ => None end) tr.

(** ** The preemption rules in the spec's words *)

(** [now - max(CreatedAt, LastGoodPieceReceived, LastPieceSent) > IdleConnTTL] *)
Definition idle_conn (now : Time) (cfg : Config) (c : conn) : Prop :=
  now - Z.max (Z.max (conn_CreatedAt c) (conn_LastGoodPieceReceived c))
              (conn_LastPieceSent c)
  > IdleConnTTL cfg.

(** [now - CreatedAt > ConnTTL] *)
Definition expired_conn (now : Time) (cfg : Config) (c : conn) : Prop :=
  now - conn_CreatedAt c > ConnTTL cfg.

(** Idle, or else past its age. *)
Definition preempted (now : Time) (cfg : Config) (c : conn) : Prop :=
  idle_conn now cfg c ∨ (¬ idle_conn now cfg c ∧ expired_conn now cfg c).

(** Complete, with an empty dispatcher, and
    [now - max(CreatedAt, LastConnRemoved) > IdleSeederTTL]. *)
Definition idle_seeder (now : Time) (cfg : Config) (c : torrentControl) : Prop :=
  Complete c = true
  ∧ dispatcher_Empty (Dispatcher c) = true
  ∧ now - Z.max (dispatcher_CreatedAt (Dispatcher c))
                (dispatcher_LastConnRemoved (Dispatcher c))
    > IdleSeederTTL cfg.

#[global] Instance idle_conn_dec now cfg c : Decision (idle_conn now cfg c).
Proof. unfold idle_conn. apply _. Defined.
#[global] Instance expired_conn_dec now cfg c : Decision (expired_conn now cfg c).
Proof. unfold expired_conn. apply _. Defined.
#[global] Instance preempted_dec now cfg c : Decision (preempted now cfg c).
Proof. unfold preempted. apply _. Defined.
#[global] Instance idle_seeder_dec now cfg c : Decision (idle_seeder now cfg c).
Proof. unfold idle_seeder. apply _. Defined.

(** ** The preemption rules as the code compares

    The same rules with the difference [Time.Sub] gives, at the reading
    [now] the comparison takes. *)

Definition idle_conn_at (now : Time) (cfg : Config) (c : conn) : Prop :=
  Time_Sub now (Z.max (Z.max (conn_CreatedAt c) (conn_LastGoodPieceReceived c))
                      (conn_LastPieceSent c))
  > IdleConnTTL cfg.

Definition expired_conn_at (now : Time) (cfg : Config) (c : conn) : Prop :=
  Time_Sub now (conn_CreatedAt c) > ConnTTL cfg.

Definition preempted_at (now : Time) (cfg : Config) (c : conn) : Prop :=
  idle_conn_at now cfg c
  ∨ (¬ idle_conn_at now cfg c ∧ expired_conn_at now cfg c).

Definition idle_seeder_at (now : Time) (cfg : Config) (c : torrentControl)
    : Prop :=
  Complete c = true
  ∧ dispatcher_Empty (Dispatcher c) = true
  ∧ Time_Sub now (Z.max (dispatcher_CreatedAt (Dispatcher c))
                        (dispatcher_LastConnRemoved (Dispatcher c)))
    > IdleSeederTTL cfg.

#[global] Instance idle_conn_at_dec now cfg c : Decision (idle_conn_at now cfg c).
Proof. unfold idle_conn_at. apply _. Defined.
#[global] Instance expired_conn_at_dec now cfg c :
  Decision (expired_conn_at now cfg c).
Proof. unfold expired_conn_at. apply _. Defined.
#[global] Instance preempted_at_dec now cfg c : Decision (preempted_at now cfg c).
Proof. unfold preempted_at. apply _. Defined.
#[global] Instance idle_seeder_at_dec now cfg c :
  Decision (idle_seeder_at now cfg c).
Proof. unfold idle_seeder_at. apply _. Defined.


(** A clock that reads [now] at every call. *)
Definition steady (now : Time) (clk : nat → Time) : Prop :=
  ∀ n, clk n = now.

(** What the second loop of the tick leaves of [torrentControls], entry
    by entry, on a clock that reads [now]. *)
Definition drop_if_idle (now : Time) (cfg : Config)
    (hp : gmap ptr torrentControl) (m : gmap InfoHash ptr)
    (kv : InfoHash * ptr) : gmap InfoHash ptr :=
  match hp !! kv.2 with
  | Some c => if decide (idle_seeder_at now cfg c) then delete kv.1 m else m
  | None => m
  end.

(** ** The collaborators as the spec describes them

    Concrete implementations of the three interfaces, for running the
    events on examples. *)

(** Modelled from the spec: [connState] is not part of this file.  Pending
    pairs, active conns and blacklist entries, with the capacity left per
    torrent.  An [InfoHash] with no capacity entry reads as 0, as a Go map
    does. *)
Record connStateModel : Type := {
  cs_MaxConnsPerTorrent : nat;
  cs_BlacklistDuration : Duration;
  cs_now : Time;
  cs_capacity : gmap InfoHash nat;
  cs_pending : list (PeerID * InfoHash);
  cs_active : list conn;
  cs_blacklist : list (PeerID * InfoHash * Time);
}.

Definition conn_key (c : conn) : PeerID * InfoHash :=
  (conn_PeerID c, conn_InfoHash c).

Definition cs_is_pending (k : PeerID * InfoHash) (cs : connStateModel) : bool :=
  bool_decide (k ∈ cs_pending cs).
Definition cs_is_active (k : PeerID * InfoHash) (cs : connStateModel) : bool :=
  bool_decide (k ∈ conn_key <$> cs_active cs).
Definition cs_is_blacklisted (k : PeerID * InfoHash) (cs : connStateModel)
    : bool :=
  bool_decide (k ∈ fst <$> cs_blacklist cs).

Definition cs_cap (h : InfoHash) (cs : connStateModel) : nat :=
  default 0%nat (cs_capacity cs !! h).

(** Modelled from the spec: [AddPending] fails with [AtCapacity] when
    [capacity[h] == 0], fails when the pair is blacklisted, pending or
    active, and otherwise reserves one unit of capacity. *)
Definition model_AddPending (p : PeerID) (h : InfoHash) (cs : connStateModel)
    : option error * connStateModel :=
  if decide (cs_cap h cs = 0%nat) then (Some errTorrentAtCapacity, cs)
  else if cs_is_blacklisted (p, h) cs then (Some errConnBlacklisted, cs)
  else if cs_is_pending (p, h) cs then (Some errConnAlreadyPending, cs)
  else if cs_is_active (p, h) cs then (Some errConnAlreadyActive, cs)
  else
    (None,
     {| cs_MaxConnsPerTorrent := cs_MaxConnsPerTorrent cs;
        cs_BlacklistDuration := cs_BlacklistDuration cs;
        cs_now := cs_now cs;
        cs_capacity := <[h := pred (cs_cap h cs)]> (cs_capacity cs);
        cs_pending := cs_pending cs ++ [(p, h)];
        cs_active := cs_active cs;
        cs_blacklist := cs_blacklist cs |}).

(** Modelled from the spec: [DeleteActive] removes the conn from the active
    set and releases one unit of capacity. *)
Definition model_DeleteActive (c : conn) (cs : connStateModel)
    : connStateModel :=
  if cs_is_active (conn_key c) cs then
    {| cs_MaxConnsPerTorrent := cs_MaxConnsPerTorrent cs;
       cs_BlacklistDuration := cs_BlacklistDuration cs;
       cs_now := cs_now cs;
       cs_capacity :=
         <[conn_InfoHash c := S (cs_cap (conn_InfoHash c) cs)]> (cs_capacity cs);
       cs_pending := cs_pending cs;
       cs_active :=
         filter (λ c', conn_key c' ≠ conn_key c) (cs_active cs);
       cs_blacklist := cs_blacklist cs |}
  else cs.

(** Modelled from the spec: [Blacklist] returns an error iff the pair is
    still active or pending, and otherwise inserts or refreshes the entry
    with expiry [now + BlacklistDuration]. *)
Definition model_Blacklist (p : PeerID) (h : InfoHash) (cs : connStateModel)
    : option error * connStateModel :=
  if cs_is_pending (p, h) cs || cs_is_active (p, h) cs then
    (Some (errOther "conn is pending or active"), cs)
  else
    (None,
     {| cs_MaxConnsPerTorrent := cs_MaxConnsPerTorrent cs;
        cs_BlacklistDuration := cs_BlacklistDuration cs;
        cs_now := cs_now cs;
        cs_capacity := cs_capacity cs;
        cs_pending := cs_pending cs;
        cs_active := cs_active cs;
        cs_blacklist :=
          filter (λ e, fst e ≠ (p, h)) (cs_blacklist cs)
          ++ [(p, h, cs_now cs + cs_BlacklistDuration cs)] |}).

(** Modelled from the spec: [InitCapacity] sets [capacity[h]] to
    [MaxConnsPerTorrent] the first time [h] is seen. *)
Definition model_InitCapacity (h : InfoHash) (cs : connStateModel)
    : connStateModel :=
  match cs_capacity cs !! h with
  | Some _ => cs
  | None =>
      {| cs_MaxConnsPerTorrent := cs_MaxConnsPerTorrent cs;
         cs_BlacklistDuration := cs_BlacklistDuration cs;
         cs_now := cs_now cs;
         cs_capacity := <[h := cs_MaxConnsPerTorrent cs]> (cs_capacity cs);
         cs_pending := cs_pending cs;
         cs_active := cs_active cs;
         cs_blacklist := cs_blacklist cs |}
  end.

Definition connStateModel_ops : ConnStateOps connStateModel := {|
  AddPending := model_AddPending;
  DeleteActive := model_DeleteActive;
  Blacklist := model_Blacklist;
  ActiveConns := cs_active;
  InitCapacity := model_InitCapacity;
|}.

(** Modelled from the spec: [announceQueue] is not part of this file.  The
    ready entries in queue order and the in-flight ones; an entry in neither
    is done or was never added.  A dispatcher is known by the [InfoHash] of
    its torrent. *)
Record announceQueueModel : Type := {
  aq_ready : list dispatcher;
  aq_inflight : list dispatcher;
}.

Definition same_torrent (d d' : dispatcher) : bool :=
  bool_decide (Torrent_InfoHash (dispatcher_Torrent d)
               = Torrent_InfoHash (dispatcher_Torrent d')).

Definition aq_without (d : dispatcher) (l : list dispatcher) : list dispatcher :=
  filter (λ d', same_torrent d d' = false) l.

Definition model_Add (d : dispatcher) (q : announceQueueModel)
    : announceQueueModel :=
  {| aq_ready := aq_ready q ++ [d]; aq_inflight := aq_inflight q |}.

Definition model_Ready (d : dispatcher) (q : announceQueueModel)
    : announceQueueModel :=
  if existsb (same_torrent d) (aq_inflight q) then
    {| aq_ready := aq_ready q ++ [d];
       aq_inflight := aq_without d (aq_inflight q) |}
  else q.

Definition model_Done (d : dispatcher) (q : announceQueueModel)
    : announceQueueModel :=
  {| aq_ready := aq_without d (aq_ready q);
     aq_inflight := aq_without d (aq_inflight q) |}.

Definition announceQueueModel_ops : AnnounceQueueOps announceQueueModel := {|
  Add := model_Add;
  Ready := model_Ready;
  Done := model_Done;
|}.

(** Modelled from the spec: [torlib.NewPeerID] is not part of this file.  A
    [PeerID] is 20 bytes and a string may fail to parse; the strings that
    parse are taken to be the 40 hex digits of those bytes. *)
Definition hex_digit (a : Ascii.ascii) : option N :=
  let n := Ascii.N_of_ascii a in
  if bool_decide (48 ≤ n ≤ 57)%N then Some (n - 48)%N
  else if bool_decide (97 ≤ n ≤ 102)%N then Some (n - 87)%N
  else if bool_decide (65 ≤ n ≤ 70)%N then Some (n - 55)%N
  else None.

Fixpoint hex_value (acc : N) (s : string) : option N :=
  match s with
  | EmptyString => Some acc
  | String a s' =>
      match hex_digit a with
      | Some d => hex_value (16 * acc + d)%N s'
      | None => None
      end
  end.

Definition model_NewPeerID (s : string) : PeerID + error :=
  if decide (String.length s = 40%nat) then
    match hex_value 0%N s with
    | Some n => inl n
    | None => inr (errOther "invalid hex digit")
    end
  else inr (errOther "invalid PeerID length").

Definition torlibModel_ops : TorlibOps := {|
  NewPeerID := model_NewPeerID;
|}.

(** ** Example data *)

Definition ex_self : PeerID := 10%N.
Definition ex_h : InfoHash := 1%N.

Definition ex_peer_self : PeerInfo :=
  {| PeerInfo_PeerID := "000000000000000000000000000000000000000a";
     PeerInfo_IP := "10.0.0.1"; PeerInfo_Port := 6881 |}.
Definition ex_peer_y : PeerInfo :=
  {| PeerInfo_PeerID := "000000000000000000000000000000000000000b";
     PeerInfo_IP := "10.0.0.2"; PeerInfo_Port := 6882 |}.
Definition ex_peer_z : PeerInfo :=
  {| PeerInfo_PeerID := "000000000000000000000000000000000000000c";
     PeerInfo_IP := "10.0.0.3"; PeerInfo_Port := 6883 |}.
Definition ex_peer_w : PeerInfo :=
  {| PeerInfo_PeerID := "000000000000000000000000000000000000000d";
     PeerInfo_IP := "10.0.0.4"; PeerInfo_Port := 6884 |}.

Definition ex_torrent : Torrent :=
  {| Torrent_Name := "t1"; Torrent_InfoHash := ex_h |}.

Definition ex_dispatcher : dispatcher :=
  {| dispatcher_Torrent := ex_torrent; dispatcher_CreatedAt := 100;
     dispatcher_LastConnRemoved := 200; dispatcher_Empty := true |}.

Definition ex_config : Config :=
  {| IdleConnTTL := 50; ConnTTL := 500; IdleSeederTTL := 300 |}.

Definition ex_factory (t : Torrent) : dispatcher :=
  {| dispatcher_Torrent := t; dispatcher_CreatedAt := 1000;
     dispatcher_LastConnRemoved := 0; dispatcher_Empty := true |}.

(** A [connState] with the given capacity left for [ex_h], pending pairs
    and active conns, and nothing blacklisted. *)
Definition ex_connState (cap : nat) (pending : list (PeerID * InfoHash))
    (active : list conn) : connStateModel :=
  {| cs_MaxConnsPerTorrent := 2; cs_BlacklistDuration := 30; cs_now := 1000;
     cs_capacity := {[ ex_h := cap ]};
     cs_pending := pending; cs_active := active; cs_blacklist := [] |}.

(** An announce queue whose only entry, [ex_dispatcher], is in flight. *)
Definition ex_queue : announceQueueModel :=
  {| aq_ready := []; aq_inflight := [ex_dispatcher] |}.

Definition ex_scheduler (cs : connStateModel)
    (tcs : gmap InfoHash ptr) (hp : gmap ptr torrentControl)
    : Scheduler connStateModel announceQueueModel :=
  {| peerID := ex_self; config := ex_config; clock := λ _, 1000;
     connState := cs; announceQueue := ex_queue;
     dispatcherFactory := ex_factory;
     torrentControls := tcs; heap := hp |}.

(** The control of [ex_h] with the given waiters and completion flag. *)
Definition ex_ctrl (errs : list errchan) (complete : bool) : torrentControl :=
  {| Dispatcher := ex_dispatcher; Errors := errs; Complete := complete |}.

(** A Scheduler that knows [ex_h], with its control at address 1. *)
Definition ex_known (cs : connStateModel) (errs : list errchan)
    (complete : bool) : Scheduler connStateModel announceQueueModel :=
  ex_scheduler cs {[ ex_h := 1%positive ]} {[ 1%positive := ex_ctrl errs complete ]}.

(** A Scheduler that knows no torrent. *)
Definition ex_unknown (cs : connStateModel)
    : Scheduler connStateModel announceQueueModel :=
  ex_scheduler cs ∅ ∅.

(** The example Schedulers: one that knows no torrent; one where [ex_h]
    has two waiters; one where [ex_h] is complete; one where [ex_h] is
    downloading and has room for one more conn, and one with room for two. *)
Definition ex_s_unknown : Scheduler connStateModel announceQueueModel :=
  ex_unknown (ex_connState 2 [] []).
Definition ex_s_waiting : Scheduler connStateModel announceQueueModel :=
  ex_known (ex_connState 2 [] []) [7; 8]%nat false.
Definition ex_s_complete : Scheduler connStateModel announceQueueModel :=
  ex_known (ex_connState 2 [] []) [7; 8]%nat true.
Definition ex_s_room1 : Scheduler connStateModel announceQueueModel :=
  ex_known (ex_connState 1 [] []) [] false.
Definition ex_s_room2 : Scheduler connStateModel announceQueueModel :=
  ex_known (ex_connState 2 [] []) [] false.

(** Three conns at clock 1000 under [ex_config]: one without progress
    for 100, one fresh, one that made progress 20 ago but is 600 old. *)
Definition ex_conn_idle : conn :=
  {| conn_PeerID := 11%N; conn_InfoHash := ex_h; conn_CreatedAt := 900;
     conn_LastGoodPieceReceived := 0; conn_LastPieceSent := 0 |}.
Definition ex_conn_fresh : conn :=
  {| conn_PeerID := 12%N; conn_InfoHash := ex_h; conn_CreatedAt := 990;
     conn_LastGoodPieceReceived := 995; conn_LastPieceSent := 0 |}.
Definition ex_conn_old : conn :=
  {| conn_PeerID := 13%N; conn_InfoHash := ex_h; conn_CreatedAt := 400;
     conn_LastGoodPieceReceived := 0; conn_LastPieceSent := 980 |}.

(** A Scheduler with these three conns active, and one where
    [ex_conn_idle] is active while its pair is also still pending. *)
Definition ex_s_conns : Scheduler connStateModel announceQueueModel :=
  ex_known (ex_connState 0 [] [ex_conn_idle; ex_conn_fresh; ex_conn_old])
    [] false.
Definition ex_s_twice : Scheduler connStateModel announceQueueModel :=
  ex_known (ex_connState 0 [(11%N, ex_h)] [ex_conn_idle]) [] false.





(** ** The remaining events

    [failedHandshakeEvent], [incomingHandshakeEvent], [announceTickEvent],
    [announceFailureEvent] and [cleanupBlacklistEvent] call three more
    collaborator methods and reach three more things outside.
    [incomingConnEvent] and [outgoingConnEvent] are left out: each is one
    call of a Scheduler method that is not in this file. *)

(** [*handshake], seen through the fields the events read. *)
Record handshake : Type := {
  handshake_PeerID : PeerID;
  handshake_InfoHash : InfoHash;
}.

(** A [net.Conn] is known by its identity. *)
Definition netconn : Type := nat.

(** The actions of all the events: those above, and the rest.  [Call_Next]
    carries what [Next()] returned, [None] for [ok == false]. *)
Inductive action_more : Type :=
  | Core (a : action)
  | Call_DeletePending (p : PeerID) (h : InfoHash)
  | Call_DeleteStaleBlacklistEntries
  | Call_Next (r : option dispatcher)
  | Go_initIncomingConn (nc : netconn) (hs : handshake)
  | Go_announce (d : dispatcher)
  | NetConn_Close (nc : netconn).

Class ConnStateMoreOps (CS : Type) : Type := {
  DeletePending : PeerID → InfoHash → CS → CS;
  DeleteStaleBlacklistEntries : CS → CS;
}.

Class AnnounceQueueNextOps (AQ : Type) : Type := {
  Next : AQ → option dispatcher * AQ;
}.

Section MoreEvents.
Context {CS AQ : Type} `{!ConnStateOps CS, !AnnounceQueueOps AQ, !TorlibOps}
  `{!ConnStateMoreOps CS, !AnnounceQueueNextOps AQ}.

(** [Apply] bodies over the larger set of actions. *)
Definition ME (A : Type) : Type :=
  Scheduler CS AQ → option A * Scheduler CS AQ * list action_more.

#[global] Instance ME_ret : MRet ME := λ A a s, (Some a, s, []).

#[global] Instance ME_bind : MBind ME := λ A B f m s,
  match m s with
  | (None, s1, t1) => (None, s1, t1)
  | (Some a, s1, t1) =>
      match f a s1 with
      | (r, s2, t2) => (r, s2, t1 ++ t2)
      end
  end.

(** A body of the first kind, run as one of the second. *)
Definition lift {A : Type} (m : M A) : ME A :=
  λ s, match m s with (r, s', tr) => (r, s', Core <$> tr) end.

Definition emit_more (a : action_more) : ME unit :=
  λ s, (Some tt, s, [a]).

Definition connState_DeletePending (p : PeerID) (h : InfoHash) : ME unit :=
  emit_more (Call_DeletePending p h);;
  lift (modify (set_connState (DeletePending p h))).

Definition connState_DeleteStaleBlacklistEntries : ME unit :=
  emit_more Call_DeleteStaleBlacklistEntries;;
  lift (modify (set_connState DeleteStaleBlacklistEntries)).

Definition announceQueue_Next : ME (option dispatcher) :=
  q ← lift (gets announceQueue);
  let '(r, q') := Next q in
  emit_more (Call_Next r);;
  lift (modify (set_announceQueue (λ _, q')));;
  mret r.

(** [failedHandshakeEvent.Apply] *)
Definition failedHandshakeEvent_Apply (e_peerID : PeerID)
    (e_infoHash : InfoHash) : ME unit :=
  lift (logf DebugLevel "Applying failed handshake event");;
  connState_DeletePending e_peerID e_infoHash;;
  err ← lift (connState_Blacklist e_peerID e_infoHash);
  match err with
  | Some _ => lift (logf InfoLevel "Error blacklisting pending conn: %s")
  | None => mret tt
  end.

(** [incomingHandshakeEvent.Apply] *)
Definition incomingHandshakeEvent_Apply (e_nc : netconn)
    (e_handshake : handshake) : ME unit :=
  lift (logf DebugLevel "Applying incoming handshake event");;
  err ← lift (connState_AddPending (handshake_PeerID e_handshake)
                (handshake_InfoHash e_handshake));
  match err with
  | Some _ =>
      lift (logf ErrorLevel "Rejecting incoming handshake: %s");;
      emit_more (NetConn_Close e_nc)
  | None => emit_more (Go_initIncomingConn e_nc e_handshake)
  end.

(** [announceTickEvent.Apply] *)
Definition announceTickEvent_Apply : ME unit :=
  lift (logf DebugLevel "Applying announce tick event");;
  r ← announceQueue_Next;
  match r with
  | None => lift (logf DebugLevel "No dispatchers in announce queue")
  | Some d =>
      lift (logf DebugLevel "Announcing");;
      emit_more (Go_announce d)
  end.

(** [announceFailureEvent.Apply] *)
Definition announceFailureEvent_Apply (e_dispatcher : dispatcher) : ME unit :=
  lift (logf DebugLevel "Applying announce failure event");;
  lift (announceQueue_Ready e_dispatcher).

(** [cleanupBlacklistEvent.Apply] *)
Definition cleanupBlacklistEvent_Apply : ME unit :=
  lift (logf DebugLevel "Applying cleanup blacklist event");;
  connState_DeleteStaleBlacklistEntries.

(** All the events embedded, and [e.Apply(s)]. *)
Inductive event_more : Type :=
  | coreEvent (e : event)
  | failedHandshakeEvent (peerID : PeerID) (infoHash : InfoHash)
  | incomingHandshakeEvent (nc : netconn) (hs : handshake)
  | announceTickEvent
  | announceFailureEvent (d : dispatcher)
  | cleanupBlacklistEvent.

Definition Apply_more (e : event_more) : ME unit :=
  match e with
  | coreEvent e => lift (Apply e)
  | failedHandshakeEvent p h => failedHandshakeEvent_Apply p h
  | incomingHandshakeEvent nc hs => incomingHandshakeEvent_Apply nc hs
  | announceTickEvent => announceTickEvent_Apply
  | announceFailureEvent d => announceFailureEvent_Apply d
  | cleanupBlacklistEvent => cleanupBlacklistEvent_Apply
  end.

(** The events of a list applied one after the other.  A panic ends the
    run, as it ends the goroutine of [eventLoop.Run]. *)
Fixpoint Run_more (es : list event_more) : ME unit :=
  match es with
  | [] => mret tt
  | e :: es' => Apply_more e;; Run_more es'
  end.

(** *** The controls from one event to the next *)

(** Every pointer of [torrentControls] points to a control. *)
Definition controls_exist (s : Scheduler CS AQ) : Prop :=
  map_Forall (λ _ p, is_Some (heap s !! p)) (torrentControls s).

(** The ways [torrentControls] and the controls differ between two
    Schedulers:
    - not at all;
    - a torrent admitted: an info-hash without entry gets a pointer to a new
      control, which is not complete;
    - a waiter added to a control that is not complete;
    - a control marked complete;
    - entries dropped whose controls are complete. *)
Inductive controls_step (s s' : Scheduler CS AQ) : Prop :=
  | step_same :
      torrentControls s' = torrentControls s →
      heap s' = heap s →
      controls_step s s'
  | step_admit h p c :
      torrentControls s !! h = None →
      heap s !! p = None →
      Complete c = false →
      torrentControls s' = <[h := p]> (torrentControls s) →
      heap s' = <[p := c]> (heap s) →
      controls_step s s'
  | step_wait h p c errc :
      torrentControls s !! h = Some p →
      heap s !! p = Some c →
      Complete c = false →
      torrentControls s' = torrentControls s →
      heap s' = <[p := {| Dispatcher := Dispatcher c;
                          Errors := Errors c ++ [errc];
                          Complete := false |}]> (heap s) →
      controls_step s s'
  | step_complete h p c :
      torrentControls s !! h = Some p →
      heap s !! p = Some c →
      torrentControls s' = torrentControls s →
      heap s' = <[p := {| Dispatcher := Dispatcher c; Errors := Errors c;
                          Complete := true |}]> (heap s) →
      controls_step s s'
  | step_drop :
      (∀ h, torrentControls s !! h = None → torrentControls s' !! h = None) →
      (∀ h p, torrentControls s !! h = Some p →
              torrentControls s' !! h = Some p
              ∨ (torrentControls s' !! h = None
                 ∧ ∃ c, heap s !! p = Some c ∧ Complete c = true)) →
      heap s' = heap s →
      controls_step s s'.

(** *** Reservations and handshakes in a trace *)

(** A successful [AddPending], with its pair. *)
Definition reserved (a : action_more) : option (PeerID * InfoHash) :=
  match a with
  | Core (Call_AddPending p h None) => Some (p, h)
  | _ => None
  end.

(** The start of a handshake goroutine. *)
Definition is_spawn (a : action_more) : bool :=
  match a with
  | Core (Go_initOutgoingConn _ _ _ _) | Go_initIncomingConn _ _ => true
  | _ => false
  end.

(** The start of the handshake goroutine for the pair [ph]: an outgoing
    dial of that peer, or the incoming handshake of that peer on that
    info-hash. *)
Definition spawn_for (ph : PeerID * InfoHash) (a : action_more) : bool :=
  match a with
  | Core (Go_initOutgoingConn p _ _ _) => bool_decide (p = ph.1)
  | Go_initIncomingConn _ hs =>
      bool_decide (handshake_PeerID hs = ph.1 ∧ handshake_InfoHash hs = ph.2)
  | _ => false
  end.

(** A trace read left to right: after a successful [AddPending] the very
    next action starts the handshake for its pair, and no handshake starts
    anywhere else.  [held] is the pair reserved by the action just read. *)
Fixpoint paired_from (held : option (PeerID * InfoHash))
    (tr : list action_more) : bool :=
  match tr with
  | [] => match held with Some _ => false | None => true end
  | a :: tr' =>
      match held with
      | Some ph => spawn_for ph a && paired_from None tr'
      | None =>
          match reserved a with
          | Some ph => paired_from (Some ph) tr'
          | None => negb (is_spawn a) && paired_from None tr'
          end
      end
  end.

Definition well_paired (tr : list action_more) : bool := paired_from None tr.

End MoreEvents.

(** Modelled from the spec: [DeletePending] removes the reservation and
    releases one unit of capacity, and does nothing for a pair that is not
    pending. *)
Definition model_DeletePending (p : PeerID) (h : InfoHash)
    (cs : connStateModel) : connStateModel :=
  if cs_is_pending (p, h) cs then
    {| cs_MaxConnsPerTorrent := cs_MaxConnsPerTorrent cs;
       cs_BlacklistDuration := cs_BlacklistDuration cs;
       cs_now := cs_now cs;
       cs_capacity := <[h := S (cs_cap h cs)]> (cs_capacity cs);
       cs_pending := filter (λ k, k ≠ (p, h)) (cs_pending cs);
       cs_active := cs_active cs;
       cs_blacklist := cs_blacklist cs |}
  else cs.

(** Modelled from the spec: [DeleteStaleBlacklistEntries] drops the entries
    with [expiry <= now]. *)
Definition model_DeleteStaleBlacklistEntries (cs : connStateModel)
    : connStateModel :=
  {| cs_MaxConnsPerTorrent := cs_MaxConnsPerTorrent cs;
     cs_BlacklistDuration := cs_BlacklistDuration cs;
     cs_now := cs_now cs;
     cs_capacity := cs_capacity cs;
     cs_pending := cs_pending cs;
     cs_active := cs_active cs;
     cs_blacklist := filter (λ e, cs_now cs < e.2) (cs_blacklist cs) |}.

Definition connStateModel_more_ops : ConnStateMoreOps connStateModel := {|
  DeletePending := model_DeletePending;
  DeleteStaleBlacklistEntries := model_DeleteStaleBlacklistEntries;
|}.

(** Modelled from the spec: [Next] pops the next ready entry and marks it
    in flight, and returns none on an empty queue. *)
Definition model_Next (q : announceQueueModel)
    : option dispatcher * announceQueueModel :=
  match aq_ready q with
  | [] => (None, q)
  | d :: ds => (Some d, {| aq_ready := ds; aq_inflight := aq_inflight q ++ [d] |})
  end.

Definition announceQueueModel_next_ops : AnnounceQueueNextOps announceQueueModel := {|
  Next := model_Next;
|}.

(** A handshake from peer 14 for [ex_h], and a run that touches every
    event: a torrent is submitted twice, announced, answered by the tracker,
    a handshake comes in and fails, the torrent completes, is submitted
    again, and the timers fire. *)
Definition ex_handshake : handshake :=
  {| handshake_PeerID := 14%N; handshake_InfoHash := ex_h |}.

(** An entry of a response whose [PeerID] does not parse. *)
Definition ex_peer_bad : PeerInfo :=
  {| PeerInfo_PeerID := "not a peer id";
     PeerInfo_IP := "10.0.0.9"; PeerInfo_Port := 6889 |}.

Definition ex_run : list (@event_more) :=
  [coreEvent (newTorrentEvent ex_torrent 7%nat);
   coreEvent (newTorrentEvent ex_torrent 8%nat);
   announceTickEvent;
   coreEvent (announceResponseEvent ex_h [ex_peer_self; ex_peer_y; ex_peer_z]);
   incomingHandshakeEvent 3%nat ex_handshake;
   failedHandshakeEvent 14%N ex_h;
   announceFailureEvent (ex_factory ex_torrent);
   coreEvent (completedDispatcherEvent (ex_factory ex_torrent));
   coreEvent (newTorrentEvent ex_torrent 9%nat);
   coreEvent preemptionTickEvent;
   cleanupBlacklistEvent].

(** ** Properties of the events *)

Section EventProperties.
Context {CS AQ : Type} `{!ConnStateOps CS, !AnnounceQueueOps AQ, !TorlibOps}.

Implicit Types (s : Scheduler CS AQ) (h : InfoHash) (p : ptr).

Local Ltac run :=
  unfold mbind, mret, M_bind, M_ret, gets, modify, emit, panic; simpl.

(** *** Loops *)

Lemma for_range_nil {A : Type} (body : A → M loop_ctl) s :
  for_range [] body s = (Some Continue, s, []).
Proof. reflexivity. Qed.

Lemma for_range_cons {A : Type} (x : A) xs (body : A → M loop_ctl) s :
  for_range (x :: xs) body s =
    match body x s with
    | (Some Continue, s1, t1) =>
        match for_range xs body s1 with
        | (r, s2, t2) => (r, s2, t1 ++ t2)
        end
    | (Some Break, s1, t1) => (Some Break, s1, t1)
    | (None, s1, t1) => (None, s1, t1)
    end.
Proof.
  simpl. run.
  destruct (body x s) as [[[[]|] s1] t1]; try reflexivity.
  by rewrite app_nil_r.
Qed.

(** A loop over [xs ++ ys] is the loop over [xs] and, unless that one
    broke or panicked, the loop over [ys] from where it stopped. *)
Lemma for_range_app {A : Type} (xs ys : list A) (body : A → M loop_ctl) s :
  for_range (xs ++ ys) body s =
    match for_range xs body s with
    | (Some Continue, s1, t1) =>
        match for_range ys body s1 with
        | (r, s2, t2) => (r, s2, t1 ++ t2)
        end
    | (Some Break, s1, t1) => (Some Break, s1, t1)
    | (None, s1, t1) => (None, s1, t1)
    end.
Proof.
  revert s. induction xs as [|x xs IH]; intros s.
  - rewrite for_range_nil. simpl.
    by destruct (for_range ys body s) as [[r s2] t2].
  - rewrite <- app_comm_cons, !for_range_cons.
    destruct (body x s) as [[[[]|] s1] t1]; try reflexivity.
    rewrite IH.
    destruct (for_range xs body s1) as [[[[]|] s2] t2]; try reflexivity.
    destruct (for_range ys body s2) as [[r s3] t3].
    by rewrite app_assoc.
Qed.

(** The loop of [completedDispatcherEvent.Apply] sends on every channel
    of the list, in order, and leaves the Scheduler alone. *)
Lemma for_range_send (errs : list errchan) s :
  for_range errs (λ errc, emit (Chan_send_nil errc);; mret Continue) s =
    (Some Continue, s, Chan_send_nil <$> errs).
Proof.
  set (body := λ errc : errchan, _).
  induction errs as [|e errs IH]; [reflexivity|].
  rewrite for_range_cons.
  change (body e s) with (Some Continue, s, [Chan_send_nil e]).
  lazy beta iota zeta. by rewrite IH.
Qed.

(** C8. [closedConnEvent.Apply] calls [DeleteActive] on the conn, then
    [Blacklist] on its pair in the state [DeleteActive] left; when
    [Blacklist] returns an error one line is logged at info level, and in
    both cases the event returns normally, having changed nothing of the
    Scheduler but the [connState] through these two calls. *)
Theorem closedConn_delete_then_blacklist (c : conn) s :
  let cs1 := DeleteActive c (connState s) in
  let res := Blacklist (conn_PeerID c) (conn_InfoHash c) cs1 in
  closedConnEvent_Apply c s =
    (Some tt,
     set_connState (λ _, res.2) s,
     [Log DebugLevel "Applying closed conn event";
      Call_DeleteActive c;
      Call_Blacklist (conn_PeerID c) (conn_InfoHash c) res.1]
     ++ match res.1 with
        | Some _ => [Log InfoLevel "Error blacklisting active conn: %s"]
        | None => []
        end).
Proof.
  intros cs1 res. subst cs1 res.
  unfold closedConnEvent_Apply, connState_DeleteActive, connState_Blacklist,
    logf.
  run.
  destruct (Blacklist _ _ _) as [[e|] cs2]; reflexivity.
Qed.

Lemma chan_sends_fmap (errs : list errchan) :
  chan_sends (Chan_send_nil <$> errs) = errs.
Proof.
  induction errs as [|e errs IH]; [done|].
  rewrite fmap_cons. unfold chan_sends in *.
  change (omap ?f (?a :: ?l)) with
    (match f a with Some y => y :: omap f l | None => omap f l end).
  lazy beta iota. by rewrite IH.
Qed.

(** *** What each path of the events computes *)

Lemma completedDispatcher_present (d : dispatcher) s p c :
  torrentControls s !! Torrent_InfoHash (dispatcher_Torrent d) = Some p →
  heap s !! p = Some c →
  completedDispatcherEvent_Apply d s =
    (Some tt,
     set_heap (insert p {| Dispatcher := Dispatcher c; Errors := Errors c;
                           Complete := true |})
       (set_announceQueue (Done d) s),
     [Log DebugLevel "Applying completed dispatcher event"; Call_Done d]
     ++ (Chan_send_nil <$> Errors c)).
Proof.
  intros Hp Hc.
  unfold completedDispatcherEvent_Apply, announceQueue_Done, load, store, logf.
  run. rewrite Hp. simpl. rewrite Hc. simpl.
  rewrite (for_range_send (Errors c) (set_announceQueue (Done d) s)).
  simpl. rewrite Hc. simpl. by rewrite app_nil_r.
Qed.

Lemma completedDispatcher_dangling (d : dispatcher) s p :
  torrentControls s !! Torrent_InfoHash (dispatcher_Torrent d) = Some p →
  heap s !! p = None →
  completedDispatcherEvent_Apply d s =
    (None, set_announceQueue (Done d) s,
     [Log DebugLevel "Applying completed dispatcher event"; Call_Done d]).
Proof.
  intros Hp Hc.
  unfold completedDispatcherEvent_Apply, announceQueue_Done, load, store, logf.
  run. rewrite Hp. simpl. by rewrite Hc.
Qed.

Lemma completedDispatcher_absent (d : dispatcher) s :
  torrentControls s !! Torrent_InfoHash (dispatcher_Torrent d) = None →
  completedDispatcherEvent_Apply d s =
    (Some tt, set_announceQueue (Done d) s,
     [Log DebugLevel "Applying completed dispatcher event"; Call_Done d;
      Log ErrorLevel "Completed dispatcher not found"]).
Proof.
  intros Hp.
  unfold completedDispatcherEvent_Apply, announceQueue_Done, logf.
  run. by rewrite Hp.
Qed.

Lemma newTorrent_absent (t : Torrent) (errc : errchan) s :
  torrentControls s !! Torrent_InfoHash t = None →
  newTorrentEvent_Apply t errc s =
    (Some tt,
     {| peerID := peerID s; config := config s; clock := clock s;
        connState := InitCapacity (Torrent_InfoHash t) (connState s);
        announceQueue := Add (dispatcherFactory s t) (announceQueue s);
        dispatcherFactory := dispatcherFactory s;
        torrentControls :=
          <[Torrent_InfoHash t := fresh (dom (heap s))]> (torrentControls s);
        heap := <[fresh (dom (heap s)) :=
                    {| Dispatcher := dispatcherFactory s t;
                       Errors := [errc]; Complete := false |}]> (heap s) |},
     [Log DebugLevel "Applying new torrent event"; Call_New t;
      Call_Add (dispatcherFactory s t);
      Call_InitCapacity (Torrent_InfoHash t)]).
Proof.
  intros Hno.
  unfold newTorrentEvent_Apply, dispatcherFactory_New, alloc, load, store,
    announceQueue_Add, connState_InitCapacity, logf.
  run. rewrite Hno. simpl.
  rewrite !lookup_insert_eq. simpl. rewrite lookup_insert_eq. simpl.
  unfold set_heap. simpl. by rewrite insert_insert_eq.
Qed.

Lemma newTorrent_complete (t : Torrent) (errc : errchan) s p c :
  torrentControls s !! Torrent_InfoHash t = Some p →
  heap s !! p = Some c →
  Complete c = true →
  newTorrentEvent_Apply t errc s =
    (Some tt, s,
     [Log DebugLevel "Applying new torrent event"; Chan_send_nil errc]).
Proof.
  intros Hp Hc Hdone.
  unfold newTorrentEvent_Apply, load, logf. run.
  rewrite Hp. simpl. rewrite Hc. simpl. by rewrite Hdone.
Qed.

Lemma newTorrent_incomplete (t : Torrent) (errc : errchan) s p c :
  torrentControls s !! Torrent_InfoHash t = Some p →
  heap s !! p = Some c →
  Complete c = false →
  newTorrentEvent_Apply t errc s =
    (Some tt,
     set_heap (insert p {| Dispatcher := Dispatcher c;
                           Errors := Errors c ++ [errc];
                           Complete := false |}) s,
     [Log DebugLevel "Applying new torrent event"]).
Proof.
  intros Hp Hc Hnot.
  unfold newTorrentEvent_Apply, load, store, logf. run.
  rewrite Hp. simpl. rewrite Hc. simpl. by rewrite Hnot.
Qed.

(** Submissions for a torrent that is known and not complete only append
    their channels to [ctrl.Errors]: nothing is sent. *)
Lemma Run_newTorrent_incomplete (t : Torrent) (errcs : list errchan) :
  ∀ s p c,
    torrentControls s !! Torrent_InfoHash t = Some p →
    heap s !! p = Some c →
    Complete c = false →
    ∃ s1 tr1,
      Run (newTorrentEvent t <$> errcs) s = (Some tt, s1, tr1)
      ∧ chan_sends tr1 = []
      ∧ torrentControls s1 !! Torrent_InfoHash t = Some p
      ∧ heap s1 !! p =
          Some {| Dispatcher := Dispatcher c; Errors := Errors c ++ errcs;
                  Complete := false |}.
Proof.
  induction errcs as [|e errcs IH]; intros s p c Hp Hc Hnot.
  - exists s, []. rewrite app_nil_r. destruct c; simpl in *. by subst.
  - rewrite fmap_cons.
    destruct (IH (set_heap (insert p {| Dispatcher := Dispatcher c;
                                        Errors := Errors c ++ [e];
                                        Complete := false |}) s)
                p {| Dispatcher := Dispatcher c; Errors := Errors c ++ [e];
                     Complete := false |})
      as (s1 & tr1 & Hrun & Hsends & Hp1 & Hc1); simpl; auto.
    { apply lookup_insert_eq. }
    exists s1, (Log DebugLevel "Applying new torrent event" :: tr1).
    set (rest := newTorrentEvent t <$> errcs) in *.
    split_and!; auto.
    + simpl. run.
      rewrite (newTorrent_incomplete t e s p c Hp Hc Hnot).
      by rewrite Hrun.
    + rewrite Hc1. simpl. by rewrite <- app_assoc.
Qed.

(** *** Announce responses *)

(** A loop keeps what each run of its body keeps. *)
Lemma for_range_inv {A : Type} (P : Scheduler CS AQ → Prop)
    (body : A → M loop_ctl) (xs : list A) :
  (∀ x s r s' tr, P s → body x s = (r, s', tr) → P s') →
  ∀ s r s' tr, P s → for_range xs body s = (r, s', tr) → P s'.
Proof.
  intros Hbody. induction xs as [|x xs IH]; intros s r s' tr HP Hrun.
  - rewrite for_range_nil in Hrun. by simplify_eq.
  - rewrite for_range_cons in Hrun.
    destruct (body x s) as [[[[]|] s1] t1] eqn:Hx;
      pose proof (Hbody _ _ _ _ _ HP Hx) as HP1.
    + destruct (for_range xs body s1) as [[r2 s2] t2] eqn:Hxs.
      simplify_eq. eapply IH; eauto.
    + by simplify_eq.
    + by simplify_eq.
Qed.

Lemma announceResponse_peer_unparsed h ctrl (p : PeerInfo) s e :
  NewPeerID (PeerInfo_PeerID p) = inr e →
  announceResponse_peer h ctrl p s =
    (Some Continue, s,
     [Log ErrorLevel "Error creating PeerID from announce response: %s"]).
Proof. intros Hparse. unfold announceResponse_peer. by rewrite Hparse. Qed.

Lemma announceResponse_peer_self h ctrl (p : PeerInfo) s :
  NewPeerID (PeerInfo_PeerID p) = inl (peerID s) →
  announceResponse_peer h ctrl p s = (Some Continue, s, []).
Proof.
  intros Hparse. unfold announceResponse_peer. rewrite Hparse. run.
  by rewrite decide_True.
Qed.

(** What [announceResponse_peer] does for a peer that parses and is not
    this Scheduler, by what [AddPending] returns. *)
Lemma announceResponse_peer_other h ctrl (p : PeerInfo) s pid :
  NewPeerID (PeerInfo_PeerID p) = inl pid →
  pid ≠ peerID s →
  let res := AddPending pid h (connState s) in
  let s2 := set_connState (λ _, res.2) s in
  announceResponse_peer h ctrl p s =
    match res.1 with
    | Some e =>
        if decide (e = errTorrentAtCapacity) then
          (Some Break, s2,
           [Call_AddPending pid h res.1;
            Log InfoLevel
              "Cannot open any more connections, torrent is at capacity"])
        else
          (Some Continue, s2,
           [Call_AddPending pid h res.1;
            Log InfoLevel "Cannot add pending conn: %s, skipping"])
    | None =>
        match heap s !! ctrl with
        | Some c =>
            (Some Continue, s2,
             [Call_AddPending pid h res.1;
              Go_initOutgoingConn pid (PeerInfo_IP p) (PeerInfo_Port p)
                (dispatcher_Torrent (Dispatcher c))])
        | None => (None, s2, [Call_AddPending pid h res.1])
        end
    end.
Proof.
  intros Hparse Hne res s2. subst res s2.
  unfold announceResponse_peer, connState_AddPending, load, logf.
  rewrite Hparse. run. rewrite decide_False by done.
  destruct (AddPending pid h (connState s)) as [[e|] cs'] eqn:Hadd; simpl.
  - by destruct (decide (e = errTorrentAtCapacity)).
  - by destruct (heap s !! ctrl).
Qed.

(** No peer of a response changes anything but the [connState]. *)
Lemma announceResponse_peer_frame h ctrl (p : PeerInfo) s r s' tr :
  announceResponse_peer h ctrl p s = (r, s', tr) →
  peerID s' = peerID s ∧ heap s' = heap s
  ∧ torrentControls s' = torrentControls s
  ∧ announceQueue s' = announceQueue s.
Proof.
  destruct (NewPeerID (PeerInfo_PeerID p)) as [pid|e] eqn:Hparse.
  - destruct (decide (pid = peerID s)) as [->|Hne].
    + rewrite announceResponse_peer_self by done. by intros [= <- <- <-].
    + rewrite (announceResponse_peer_other h ctrl p s pid Hparse Hne).
      destruct (AddPending pid h (connState s)) as [[e|] cs']; simpl.
      * destruct (decide (e = errTorrentAtCapacity)); by intros [= <- <- <-].
      * destruct (heap s !! ctrl); by intros [= <- <- <-].
  - rewrite (announceResponse_peer_unparsed h ctrl p s e Hparse).
    by intros [= <- <- <-].
Qed.

Lemma announceResponse_loop_frame h ctrl (ps : list PeerInfo) s r s' tr :
  for_range ps (announceResponse_peer h ctrl) s = (r, s', tr) →
  peerID s' = peerID s ∧ heap s' = heap s
  ∧ torrentControls s' = torrentControls s
  ∧ announceQueue s' = announceQueue s.
Proof.
  apply (for_range_inv
           (λ s0, peerID s0 = peerID s ∧ heap s0 = heap s
                  ∧ torrentControls s0 = torrentControls s
                  ∧ announceQueue s0 = announceQueue s)); [|done].
  intros x s0 r0 s0' tr0 (? & ? & ? & ?) Hx.
  apply announceResponse_peer_frame in Hx as (? & ? & ? & ?).
  split_and!; congruence.
Qed.

(** With a control for the info-hash, [announceResponseEvent.Apply] is
    the [Ready] call followed by the loop over the peers. *)
Lemma announceResponse_present h (peers : list PeerInfo) s ctrl c :
  torrentControls s !! h = Some ctrl →
  heap s !! ctrl = Some c →
  announceResponseEvent_Apply h peers s =
    match for_range peers (announceResponse_peer h ctrl)
            (set_announceQueue (Ready (Dispatcher c)) s) with
    | (r, s', tr) =>
        (match r with Some _ => Some tt | None => None end, s',
         [Log DebugLevel "Applying announce response event";
          Call_Ready (Dispatcher c)] ++ tr)
    end.
Proof.
  intros Hp Hc.
  unfold announceResponseEvent_Apply, announceQueue_Ready, load, logf.
  run. rewrite Hp. simpl. rewrite Hc. simpl.
  destruct (for_range peers _ _) as [[[r|] s'] tr]; simpl;
    by rewrite ?app_nil_r.
Qed.

Lemma announceResponse_absent h (peers : list PeerInfo) s :
  torrentControls s !! h = None →
  announceResponseEvent_Apply h peers s =
    (Some tt, s,
     [Log DebugLevel "Applying announce response event";
      Log InfoLevel "Dispatcher closed after announce response received"]).
Proof.
  intros Hno. unfold announceResponseEvent_Apply, logf. run.
  by rewrite Hno.
Qed.

Lemma announceResponse_dangling h (peers : list PeerInfo) s ctrl :
  torrentControls s !! h = Some ctrl →
  heap s !! ctrl = None →
  announceResponseEvent_Apply h peers s =
    (None, s, [Log DebugLevel "Applying announce response event"]).
Proof.
  intros Hp Hc.
  unfold announceResponseEvent_Apply, announceQueue_Ready, load, logf.
  run. rewrite Hp. simpl. by rewrite Hc.
Qed.

(** *** Preemption *)

(** A trace without [AddPending] and without outgoing dials. *)
Local Abbreviation calm tr :=
  (Forall (λ a, match a with
                | Call_AddPending _ _ _ | Go_initOutgoingConn _ _ _ _ => False
                | _ => True
                end) tr).

(** What the tick leaves alone: all but the clock and [torrentControls]. *)
Local Abbreviation tick_keeps s s' :=
  (peerID s' = peerID s ∧ config s' = config s
   ∧ connState s' = connState s ∧ announceQueue s' = announceQueue s
   ∧ dispatcherFactory s' = dispatcherFactory s ∧ heap s' = heap s).

Lemma closes_app (t1 t2 : list action) :
  closes (t1 ++ t2) = closes t1 ++ closes t2.
Proof. apply omap_app. Qed.






(** One conn of the first loop: one reading of the clock when the conn is
    idle, two when it is not. *)
Lemma preemption_conn_run (c : conn) s :
  ∃ s' tr,
    preemption_conn c s = (Some Continue, s', tr)
    ∧ tick_keeps s s' ∧ torrentControls s' = torrentControls s
    ∧ calm tr
    ∧ ∀ now, steady now (clock s) →
        steady now (clock s')
        ∧ closes tr = if decide (preempted_at now (config s) c) then [c] else [].
Proof.
  unfold preemption_conn, clock_Now, logf. run.
  destruct (decide (Time_Sub (clock s 0%nat) _ > _)) as [Hidle|Hidle]; simpl.
  - eexists _, _. split_and!; try done; [by repeat constructor|].
    intros now Hst. split; [intros n; apply Hst|].
    rewrite decide_True; [done|]. left. unfold idle_conn_at.
    by rewrite <- (Hst 0%nat).
  - destruct (decide (Time_Sub (clock s 1%nat) _ > _)) as [Hold|Hold]; simpl.
    + eexists _, _. split_and!; try done; [by repeat constructor|].
      intros now Hst. split; [intros n; apply Hst|].
      rewrite decide_True; [done|]. right. unfold idle_conn_at, expired_conn_at.
      by rewrite <- (Hst 0%nat) at 1; rewrite <- (Hst 1%nat).
    + eexists _, _. split_and!; try done.
      intros now Hst. split; [intros n; apply Hst|].
      rewrite decide_False; [done|].
      unfold preempted_at, idle_conn_at, expired_conn_at.
      rewrite <- (Hst 0%nat) at 1 2. rewrite <- (Hst 1%nat). tauto.
Qed.

(** The first loop of the tick: on a clock that reads [now] it closes the
    preempted conns of the list, in order. *)
Lemma preemption_conns_run (conns : list conn) :
  ∀ s,
    ∃ s' tr,
      for_range conns preemption_conn s = (Some Continue, s', tr)
      ∧ tick_keeps s s' ∧ torrentControls s' = torrentControls s
      ∧ calm tr
      ∧ ∀ now, steady now (clock s) →
          steady now (clock s')
          ∧ closes tr = filter (preempted_at now (config s)) conns.
Proof.
  induction conns as [|c conns IH]; intros s.
  - exists s, []. by split_and!.
  - rewrite for_range_cons.
    destruct (preemption_conn_run c s)
      as (s1 & t1 & -> & (? & Hcfg & ? & ? & ? & ?) & ? & Hq1 & Hst1).
    destruct (IH s1) as (s' & tr & -> & (? & ? & ? & ? & ? & ?) & ? & Hq & Hst).
    eexists _, _. split_and!; try done; try congruence.
    + by apply Forall_app.
    + intros now Hnow. destruct (Hst1 now Hnow) as [Hnow1 Hcl1].
      destruct (Hst now Hnow1) as [Hnow' Hcl]. split; [done|].
      rewrite closes_app, Hcl1, Hcl, Hcfg, filter_cons.
      by case_decide.
Qed.

(** One entry of the second loop: one reading of the clock when the
    control is complete and its dispatcher empty, none otherwise. *)
Lemma preemption_torrent_run h p s c :
  heap s !! p = Some c →
  ∃ s' tr,
    preemption_torrent (h, p) s = (Some Continue, s', tr)
    ∧ tick_keeps s s' ∧ calm tr ∧ closes tr = []
    ∧ (torrentControls s' = torrentControls s
       ∨ (torrentControls s' = delete h (torrentControls s)
          ∧ Complete c = true))
    ∧ ∀ now, steady now (clock s) →
        steady now (clock s')
        ∧ torrentControls s' =
            drop_if_idle now (config s) (heap s) (torrentControls s) (h, p).
Proof.
  intros Hc.
  unfold preemption_torrent, load, clock_Now, logf, drop_if_idle. run.
  rewrite Hc. simpl.
  destruct (Complete c) eqn:Hdone, (dispatcher_Empty (Dispatcher c)) eqn:Hemp;
    simpl.
  1: destruct (decide (Time_Sub (clock s 0%nat) _ > _)) as [Hidle|Hidle]; simpl.
  - eexists _, _. split_and!; try done; [by repeat constructor|by right|].
    intros now Hst. split; [intros n; apply Hst|].
    rewrite decide_True; [done|]. unfold idle_seeder_at.
    by rewrite <- (Hst 0%nat).
  - eexists _, _. split_and!; try done; [by left|].
    intros now Hst. split; [intros n; apply Hst|].
    rewrite decide_False; [done|]. unfold idle_seeder_at.
    rewrite <- (Hst 0%nat). tauto.
  - eexists _, _. split_and!; try done; [by left|].
    intros now Hst. split; [done|].
    rewrite decide_False; [done|]. unfold idle_seeder_at. intuition congruence.
  - eexists _, _. split_and!; try done; [by left|].
    intros now Hst. split; [done|].
    rewrite decide_False; [done|]. unfold idle_seeder_at. intuition congruence.
  - eexists _, _. split_and!; try done; [by left|].
    intros now Hst. split; [done|].
    rewrite decide_False; [done|]. unfold idle_seeder_at. intuition congruence.
Qed.

Lemma preemption_torrent_dangling h p s :
  heap s !! p = None →
  preemption_torrent (h, p) s = (None, s, []).
Proof.
  intros Hc. unfold preemption_torrent, load. run. by rewrite Hc.
Qed.

(** The second loop touches the clock and [torrentControls] only, and
    closes no conn, however it ends. *)
Lemma preemption_torrents_frame (l : list (InfoHash * ptr)) s r s' tr :
  for_range l preemption_torrent s = (r, s', tr) →
  tick_keeps s s' ∧ closes tr = [].
Proof.
  revert s r s' tr. induction l as [|[h p] l IH]; intros s r s' tr Hrun.
  - rewrite for_range_nil in Hrun. by simplify_eq.
  - rewrite for_range_cons in Hrun.
    destruct (heap s !! p) as [c|] eqn:Hc.
    + destruct (preemption_torrent_run h p s c Hc)
        as (s1 & t1 & Heq & (? & ? & ? & ? & ? & ?) & _ & Hcl1 & _).
      rewrite Heq in Hrun.
      destruct (for_range l _ s1) as [[r2 s2] t2] eqn:Hl.
      apply IH in Hl as [(? & ? & ? & ? & ? & ?) Hcl]. simplify_eq.
      rewrite closes_app, Hcl1, Hcl. split_and!; try done; congruence.
    + rewrite (preemption_torrent_dangling h p s Hc) in Hrun.
      by simplify_eq.
Qed.

(** The second loop over entries whose controls exist: it runs to its end,
    drops only entries whose controls are complete, and on a clock that
    reads [now] drops those that are idle seeders at [now]. *)
Lemma preemption_torrents_run (l : list (InfoHash * ptr)) :
  ∀ s,
    (∀ kv, kv ∈ l → is_Some (heap s !! kv.2)) →
    ∃ s' tr,
      for_range l preemption_torrent s = (Some Continue, s', tr)
      ∧ tick_keeps s s' ∧ calm tr
      ∧ (∀ h, torrentControls s' !! h = torrentControls s !! h
              ∨ (torrentControls s' !! h = None
                 ∧ ∃ p c, (h, p) ∈ l ∧ heap s !! p = Some c
                          ∧ Complete c = true))
      ∧ ∀ now, steady now (clock s) →
          steady now (clock s')
          ∧ torrentControls s' =
              foldl (drop_if_idle now (config s) (heap s))
                (torrentControls s) l.
Proof.
  induction l as [|[h p] l IH]; intros s Hvalid.
  - exists s, []. split_and!; try done. by left.
  - destruct (Hvalid (h, p)) as [c Hc]; [left|]. simpl in Hc.
    rewrite for_range_cons.
    destruct (preemption_torrent_run h p s c Hc)
      as (s1 & t1 & -> & (? & Hcfg & ? & ? & ? & Hheap) & Hq1 & _ & Hstep & Hst1).
    destruct (IH s1) as (s' & tr & -> & (? & ? & ? & ? & ? & ?) & Hq & Hrel & Hst).
    { intros kv Hkv. rewrite Hheap. apply Hvalid. by right. }
    eexists _, _. split_and!; try done; try congruence.
    + by apply Forall_app.
    + intros h'. destruct (Hrel h') as [Hsame|(Hnone & p' & c' & Hin & Hc' & Hd)].
      * rewrite Hsame. destruct Hstep as [->|[-> Hdone]]; [by left|].
        destruct (decide (h = h')) as [->|Hne].
        -- right. split; [apply lookup_delete_eq|].
           exists p, c. split_and!; [left|done|done].
        -- left. by rewrite lookup_delete_ne.
      * right. split; [done|]. exists p', c'.
        split_and!; [by right|congruence|done].
    + intros now Hnow. destruct (Hst1 now Hnow) as [Hnow1 Htcs1].
      destruct (Hst now Hnow1) as [Hnow' Htcs]. split; [done|].
      rewrite Htcs, Htcs1, Hcfg, Hheap. done.
Qed.

Lemma drop_if_idle_absent now cfg hp (l : list (InfoHash * ptr)) :
  ∀ (m : gmap InfoHash ptr) h,
    m !! h = None → foldl (drop_if_idle now cfg hp) m l !! h = None.
Proof.
  induction l as [|kv l IH]; intros m h Hm; [done|].
  simpl. apply IH. unfold drop_if_idle.
  destruct (hp !! kv.2) as [c|]; [|done].
  case_decide; [|done].
  destruct (decide (kv.1 = h)) as [->|Hne].
  - apply lookup_delete_eq.
  - by rewrite lookup_delete_ne.
Qed.

Lemma drop_if_idle_dropped now cfg hp (l : list (InfoHash * ptr)) :
  ∀ (m : gmap InfoHash ptr) h p c,
    (h, p) ∈ l → hp !! p = Some c → idle_seeder_at now cfg c →
    foldl (drop_if_idle now cfg hp) m l !! h = None.
Proof.
  induction l as [|kv l IH]; intros m h p c Hin Hc Hidle.
  - by apply elem_of_nil in Hin.
  - simpl. apply elem_of_cons in Hin as [<-|Hin].
    + apply drop_if_idle_absent. unfold drop_if_idle. simpl.
      rewrite Hc, decide_True by done. apply lookup_delete_eq.
    + by eapply IH.
Qed.

Lemma drop_if_idle_kept now cfg hp (l : list (InfoHash * ptr)) :
  ∀ (m : gmap InfoHash ptr) h,
    (∀ p c, (h, p) ∈ l → hp !! p = Some c → ¬ idle_seeder_at now cfg c) →
    foldl (drop_if_idle now cfg hp) m l !! h = m !! h.
Proof.
  induction l as [|[h' p'] l IH]; intros m h Hkeep; [done|].
  simpl. rewrite IH.
  - unfold drop_if_idle. simpl.
    destruct (hp !! p') as [c|] eqn:Hc; [|done].
    case_decide as Hidle; [|done].
    destruct (decide (h' = h)) as [->|Hne].
    + exfalso. eapply Hkeep; [left|done|done].
    + by rewrite lookup_delete_ne.
  - intros p c Hin. apply Hkeep. by right.
Qed.

(** What is left of a map after the second loop has run over its entries
    on a clock that reads [now]. *)
Lemma drop_if_idle_lookup now cfg (hp : gmap ptr torrentControl)
    (m : gmap InfoHash ptr) h :
  foldl (drop_if_idle now cfg hp) m (map_to_list m) !! h =
    match m !! h with
    | Some p =>
        match hp !! p with
        | Some c => if decide (idle_seeder_at now cfg c) then None else Some p
        | None => Some p
        end
    | None => None
    end.
Proof.
  destruct (m !! h) as [p|] eqn:Hp; [|by apply drop_if_idle_absent].
  destruct (hp !! p) as [c|] eqn:Hc.
  - case_decide as Hidle.
    + eapply drop_if_idle_dropped; [|done|done]. by apply elem_of_map_to_list.
    + rewrite drop_if_idle_kept; [done|].
      intros p' c' Hin Hc'. apply elem_of_map_to_list in Hin. by simplify_eq.
  - rewrite drop_if_idle_kept; [done|].
    intros p' c' Hin Hc'. apply elem_of_map_to_list in Hin. by simplify_eq.
Qed.


(** The tick on a Scheduler whose controls exist. *)
Lemma preemptionTick_run s :
  map_Forall (λ _ p, is_Some (heap s !! p)) (torrentControls s) →
  ∃ s' tr,
    preemptionTickEvent_Apply s = (Some tt, s', tr)
    ∧ tick_keeps s s' ∧ calm tr
    ∧ (∀ h, torrentControls s !! h = None → torrentControls s' !! h = None)
    ∧ (∀ h p, torrentControls s !! h = Some p →
              torrentControls s' !! h = Some p
              ∨ (torrentControls s' !! h = None
                 ∧ ∃ c, heap s !! p = Some c ∧ Complete c = true))
    ∧ ∀ now, steady now (clock s) →
        steady now (clock s')
        ∧ torrentControls s' =
            foldl (drop_if_idle now (config s) (heap s)) (torrentControls s)
              (map_to_list (torrentControls s))
        ∧ closes tr =
            filter (preempted_at now (config s)) (ActiveConns (connState s)).
Proof.
  intros Hwf.
  unfold preemptionTickEvent_Apply, connState_ActiveConns, logf. run.
  destruct (preemption_conns_run (ActiveConns (connState s)) s)
    as (s1 & tr1 & -> & (? & Hcfg1 & Hcs1 & ? & ? & Hheap1) & Htcs1 & Hq1 & Hst1).
  simpl.
  destruct (preemption_torrents_run (map_to_list (torrentControls s1)) s1)
    as (s' & tr2 & Hrun2 & (? & ? & ? & ? & ? & ?) & Hq2 & Hrel & Hst2).
  { intros [h p] Hin. apply elem_of_map_to_list in Hin.
    rewrite Htcs1 in Hin. rewrite Hheap1. by apply (Hwf h p). }
  rewrite Hrun2. simpl. rewrite app_nil_r.
  pose proof (preemption_torrents_frame _ _ _ _ _ Hrun2) as [_ Hcl2].
  eexists _, _. split_and!; try done; try congruence.
  - repeat constructor. by apply Forall_app.
  - intros h Hno. destruct (Hrel h) as [Hsame|[Hnone _]]; [|done].
    rewrite Hsame, Htcs1. done.
  - intros h p Hp. destruct (Hrel h) as [Hsame|(Hnone & p' & c' & Hin & Hc' & Hd)].
    + left. by rewrite Hsame, Htcs1.
    + right. split; [done|]. apply elem_of_map_to_list in Hin.
      rewrite Htcs1 in Hin. simplify_eq. exists c'. by rewrite <- Hheap1.
  - intros now Hnow. destruct (Hst1 now Hnow) as [Hnow1 Hcl1].
    destruct (Hst2 now Hnow1) as [Hnow' Htcs]. split_and!; [done| |].
    + rewrite Htcs, Htcs1, Hcfg1, Hheap1. done.
    + change (closes (?a :: ?b :: ?t)) with (closes t).
      by rewrite closes_app, Hcl1, Hcl2, app_nil_r.
Qed.

(** *** What the specification says of the events *)

(** C1, amended.  When [announceResponseEvent.Apply] finds no control
    for the info-hash it logs, after the line every response starts with,
    that the dispatcher was closed, and returns: these two log lines are
    all it does.  The Scheduler is left exactly as it was (the announce
    queue included: [Ready] is not called), no [AddPending] is attempted
    and no dial is started. *)
Theorem announceResponse_absent_returns h (peers : list PeerInfo) s :
  torrentControls s !! h = None →
  announceResponseEvent_Apply h peers s =
    (Some tt, s,
     [Log DebugLevel "Applying announce response event";
      Log InfoLevel "Dispatcher closed after announce response received"])
  ∧ ready_calls (announceResponseEvent_Apply h peers s).2 = []
  ∧ add_pending_calls (announceResponseEvent_Apply h peers s).2 = []
  ∧ dials (announceResponseEvent_Apply h peers s).2 = [].
Proof.
  intros Hno. by rewrite (announceResponse_absent h peers s Hno).
Qed.

(** C2, amended.  When [completedDispatcherEvent.Apply] finds a control
    for the dispatcher's info-hash, it sends [nil] on every channel of
    [ctrl.Errors], once each and in order, and sets [ctrl.Complete]; the
    [Errors] list itself is left as it was, and so is [torrentControls]. *)
Theorem completedDispatcher_signals_waiters (d : dispatcher) s p c :
  torrentControls s !! Torrent_InfoHash (dispatcher_Torrent d) = Some p →
  heap s !! p = Some c →
  ∃ s' tr,
    completedDispatcherEvent_Apply d s = (Some tt, s', tr)
    ∧ chan_sends tr = Errors c
    ∧ torrentControls s' = torrentControls s
    ∧ heap s' = <[p := {| Dispatcher := Dispatcher c; Errors := Errors c;
                          Complete := true |}]> (heap s).
Proof.
  intros Hp Hc. rewrite (completedDispatcher_present d s p c Hp Hc).
  eexists _, _. split_and!; try done.
  unfold chan_sends. rewrite omap_app. apply chan_sends_fmap.
Qed.

(** C9.  [completedDispatcherEvent.Apply] calls [AnnounceQueue.Done] on
    the dispatcher before it looks for the control, whatever the lookup
    gives.  When there is no control, it logs an error and returns: the
    queue after [Done] is the only change to the Scheduler, and nothing is
    sent on any channel. *)
Theorem completedDispatcher_always_done (d : dispatcher) s :
  (∃ r s' tr,
     completedDispatcherEvent_Apply d s =
       (r, s',
        [Log DebugLevel "Applying completed dispatcher event"; Call_Done d]
        ++ tr)
     ∧ announceQueue s' = Done d (announceQueue s))
  ∧ (torrentControls s !! Torrent_InfoHash (dispatcher_Torrent d) = None →
     ∃ tr,
       completedDispatcherEvent_Apply d s =
         (Some tt, set_announceQueue (Done d) s, tr)
       ∧ chan_sends tr = []).
Proof.
  split.
  - destruct (torrentControls s !! Torrent_InfoHash (dispatcher_Torrent d))
      as [p|] eqn:Hp.
    + destruct (heap s !! p) as [c|] eqn:Hc.
      * rewrite (completedDispatcher_present d s p c Hp Hc).
        by eexists _, _, _.
      * rewrite (completedDispatcher_dangling d s p Hp Hc).
        by eexists _, _, [].
    + rewrite (completedDispatcher_absent d s Hp). by eexists _, _, [_].
  - intros Hp. rewrite (completedDispatcher_absent d s Hp). by eexists.
Qed.

(** C10.  [newTorrentEvent.Apply] for an info-hash whose control is
    already complete sends [nil] on the event's channel, and on no other,
    and returns with the Scheduler exactly as it was: same
    [torrentControls], announce queue, [connState] and controls, so the
    channel is not appended to [Errors]; the dispatcher factory is not
    called. *)
Theorem newTorrent_complete_frame (t : Torrent) (errc : errchan) s p c :
  torrentControls s !! Torrent_InfoHash t = Some p →
  heap s !! p = Some c →
  Complete c = true →
  ∃ tr,
    newTorrentEvent_Apply t errc s = (Some tt, s, tr)
    ∧ chan_sends tr = [errc]
    ∧ (∀ t', Call_New t' ∉ tr).
Proof.
  intros Hp Hc Hdone. rewrite (newTorrent_complete t errc s p c Hp Hc Hdone).
  eexists. split_and!; try done.
  intros t' Hin. by repeat (apply elem_of_cons in Hin as [?|Hin]; [done|]);
    apply elem_of_nil in Hin.
Qed.

(** C4.  [newTorrentEvent.Apply] for a torrent with info-hash [h]:
    - when [h] has no control, the dispatcher factory is called, a control
      for the new dispatcher is allocated at a fresh address and entered
      under [h], the dispatcher is added to the announce queue and the
      capacity of [h] initialised; the new control is not complete, so the
      event's channel becomes its only waiter and nothing is sent;
    - when the control of [h] is complete, [nil] is sent on the event's
      channel at once;
    - when the control of [h] is not complete, the channel is appended to
      [ctrl.Errors] and nothing is sent;
    - so any number of submissions for an unknown torrent send nothing,
      the [completedDispatcherEvent] that follows sends [nil] on exactly
      their channels, in order, and a submission after that gets its [nil]
      at once. *)
Theorem newTorrent_admits_and_waits (t : Torrent) (errc : errchan) s :
  let h := Torrent_InfoHash t in
  (torrentControls s !! h = None →
     let p := fresh (dom (heap s)) in
     let d := dispatcherFactory s t in
     heap s !! p = None
     ∧ newTorrentControl d
         = {| Dispatcher := d; Errors := []; Complete := false |}
     ∧ newTorrentEvent_Apply t errc s =
         (Some tt,
          {| peerID := peerID s; config := config s; clock := clock s;
             connState := InitCapacity h (connState s);
             announceQueue := Add d (announceQueue s);
             dispatcherFactory := dispatcherFactory s;
             torrentControls := <[h := p]> (torrentControls s);
             heap := <[p := {| Dispatcher := d; Errors := [errc];
                               Complete := false |}]> (heap s) |},
          [Log DebugLevel "Applying new torrent event"; Call_New t;
           Call_Add d; Call_InitCapacity h]))
  ∧ (∀ p c,
       torrentControls s !! h = Some p → heap s !! p = Some c →
       Complete c = true →
       newTorrentEvent_Apply t errc s =
         (Some tt, s,
          [Log DebugLevel "Applying new torrent event"; Chan_send_nil errc]))
  ∧ (∀ p c,
       torrentControls s !! h = Some p → heap s !! p = Some c →
       Complete c = false →
       newTorrentEvent_Apply t errc s =
         (Some tt,
          set_heap (insert p {| Dispatcher := Dispatcher c;
                                Errors := Errors c ++ [errc];
                                Complete := false |}) s,
          [Log DebugLevel "Applying new torrent event"]))
  ∧ (∀ (d : dispatcher) (errcs : list errchan),
       Torrent_InfoHash (dispatcher_Torrent d) = h →
       torrentControls s !! h = None →
       ∃ s1 tr1 s2 tr2,
         Run (newTorrentEvent t <$> errcs) s = (Some tt, s1, tr1)
         ∧ chan_sends tr1 = []
         ∧ completedDispatcherEvent_Apply d s1 = (Some tt, s2, tr2)
         ∧ chan_sends tr2 = errcs
         ∧ (errcs ≠ [] →
            ∀ errc',
              newTorrentEvent_Apply t errc' s2 =
                (Some tt, s2,
                 [Log DebugLevel "Applying new torrent event";
                  Chan_send_nil errc']))).
Proof.
  intros h. split_and!.
  - intros Hno p d. split_and!; [|done|by apply newTorrent_absent].
    apply not_elem_of_dom, is_fresh.
  - intros p c. apply newTorrent_complete.
  - intros p c. apply newTorrent_incomplete.
  - intros d errcs Hd Hno.
    destruct errcs as [|e errcs].
    + exists s, []. eexists _, _.
      split_and!;
        [done|done|apply completedDispatcher_absent; by rewrite Hd
        |done|done].
    + set (p := fresh (dom (heap s))).
      set (d0 := dispatcherFactory s t).
      pose proof (newTorrent_absent t e s Hno) as Hfirst.
      fold h p d0 in Hfirst.
      match type of Hfirst with _ = (_, ?x, _) => set (sa := x) in * end.
      destruct (Run_newTorrent_incomplete t errcs sa p
                  {| Dispatcher := d0; Errors := [e]; Complete := false |})
        as (s1 & tr1 & Hrun & Hsends & Hp1 & Hc1).
      { apply lookup_insert_eq. }
      { apply lookup_insert_eq. }
      { done. }
      simpl in Hc1. unfold h in Hd. rewrite <- Hd in Hp1.
      pose proof (completedDispatcher_present d s1 p _ Hp1 Hc1) as Hdone.
      simpl in Hdone.
      match type of Hdone with _ = (_, ?x, _) => set (s2 := x) in * end.
      exists s1,
        ([Log DebugLevel "Applying new torrent event"; Call_New t;
          Call_Add d0; Call_InitCapacity h] ++ tr1).
      eexists s2, _.
      split_and!.
      * rewrite fmap_cons.
        set (rest := newTorrentEvent t <$> errcs) in *.
        simpl. run. rewrite Hfirst. by rewrite Hrun.
      * unfold chan_sends in *. rewrite omap_app, Hsends. done.
      * exact Hdone.
      * apply (chan_sends_fmap (e :: errcs)).
      * intros _ errc'.
        eapply (newTorrent_complete t errc' s2 p); [by rewrite <- Hd| |].
        -- apply lookup_insert_eq.
        -- done.
Qed.

(** C3.  Take a response whose control exists and a peer [p] of it that
    the loop reaches (the loop over the peers before it ran to its end
    without breaking) and for which [AddPending] is attempted ([p] parses
    and is not this Scheduler).  By what [AddPending] returns:
    - [errTorrentAtCapacity]: the event ends there, whatever peers follow
      [p] in the list; no call is made for them;
    - another error: [p] is skipped with a log line and the loop goes on
      with the peers after [p];
    - [nil]: [initOutgoingConn] is started for [p], with its IP and port
      and the torrent of the control's dispatcher, and the loop goes on
      with the peers after [p]. *)
Theorem announceResponse_AddPending_outcomes
    h (pre post : list PeerInfo) (p : PeerInfo) s ctrl c s1 t1 pid :
  torrentControls s !! h = Some ctrl →
  heap s !! ctrl = Some c →
  for_range pre (announceResponse_peer h ctrl)
    (set_announceQueue (Ready (Dispatcher c)) s) = (Some Continue, s1, t1) →
  NewPeerID (PeerInfo_PeerID p) = inl pid →
  pid ≠ peerID s →
  let res := AddPending pid h (connState s1) in
  let s2 := set_connState (λ _, res.2) s1 in
  let before :=
    [Log DebugLevel "Applying announce response event";
     Call_Ready (Dispatcher c)] ++ t1 ++ [Call_AddPending pid h res.1] in
  let rest := for_range post (announceResponse_peer h ctrl) s2 in
  let finish (r : option loop_ctl) :=
    match r with Some _ => Some tt | None => None end in
  announceResponseEvent_Apply h (pre ++ p :: post) s =
    match res.1 with
    | Some e =>
        if decide (e = errTorrentAtCapacity) then
          (Some tt, s2,
           before ++
           [Log InfoLevel
              "Cannot open any more connections, torrent is at capacity"])
        else
          (finish rest.1.1, rest.1.2,
           before ++
           [Log InfoLevel "Cannot add pending conn: %s, skipping"] ++ rest.2)
    | None =>
        (finish rest.1.1, rest.1.2,
         before ++
         [Go_initOutgoingConn pid (PeerInfo_IP p) (PeerInfo_Port p)
            (dispatcher_Torrent (Dispatcher c))] ++ rest.2)
    end.
Proof.
  intros Hp Hc Hpre Hparse Hne res s2 before rest finish.
  rewrite (announceResponse_present h _ s ctrl c Hp Hc).
  rewrite for_range_app, Hpre, for_range_cons.
  apply announceResponse_loop_frame in Hpre as (Hid & Hheap & _ & _).
  simpl in Hid, Hheap.
  rewrite (announceResponse_peer_other h ctrl p s1 pid Hparse)
    by (by rewrite Hid).
  rewrite Hheap, Hc. fold res s2.
  subst before. destruct (res.1) as [e|] eqn:Hres.
  - destruct (decide (e = errTorrentAtCapacity)).
    + simpl. by rewrite <- !app_assoc.
    + fold rest. destruct rest as [[r s3] t3]. simpl.
      by rewrite <- !app_assoc.
  - fold rest. destruct rest as [[r s3] t3]. simpl.
    by rewrite <- !app_assoc.
Qed.

(** C7.  A peer of an announce response whose [PeerID] is the
    Scheduler's own is passed over: the loop body does nothing for it (no
    [AddPending], no log line), so the event runs as it does on the list
    without that entry.  For a response [[p; y]] with [p] the Scheduler
    itself and [y] another peer that [AddPending] accepts, [AddPending]
    is called once, for [y], and one dial is started, for [y]. *)
Theorem announceResponse_skips_self
    h (pre post : list PeerInfo) (p y : PeerInfo) s :
  NewPeerID (PeerInfo_PeerID p) = inl (peerID s) →
  (∀ ctrl s0, peerID s0 = peerID s →
     announceResponse_peer h ctrl p s0 = (Some Continue, s0, []))
  ∧ announceResponseEvent_Apply h (pre ++ p :: post) s
      = announceResponseEvent_Apply h (pre ++ post) s
  ∧ (∀ ctrl c pidY,
       torrentControls s !! h = Some ctrl →
       heap s !! ctrl = Some c →
       NewPeerID (PeerInfo_PeerID y) = inl pidY →
       pidY ≠ peerID s →
       (AddPending pidY h (connState s)).1 = None →
       ∃ s' tr,
         announceResponseEvent_Apply h [p; y] s = (Some tt, s', tr)
         ∧ add_pending_calls tr = [pidY]
         ∧ dials tr = [(pidY, PeerInfo_IP y, PeerInfo_Port y,
                        dispatcher_Torrent (Dispatcher c))]).
Proof.
  intros Hself.
  assert (Hskip : ∀ ctrl s0, peerID s0 = peerID s →
    announceResponse_peer h ctrl p s0 = (Some Continue, s0, [])).
  { intros ctrl s0 Hid. apply announceResponse_peer_self. by rewrite Hid. }
  split_and!; [done| |].
  - destruct (torrentControls s !! h) as [ctrl|] eqn:Hp.
    + destruct (heap s !! ctrl) as [c|] eqn:Hc.
      * rewrite !(announceResponse_present h _ s ctrl c Hp Hc).
        rewrite !for_range_app.
        destruct (for_range pre _ _) as [[[[]|] s1] t1] eqn:Hpre; try done.
        apply announceResponse_loop_frame in Hpre as (Hid & _).
        rewrite for_range_cons, (Hskip ctrl s1) by done.
        by destruct (for_range post _ s1) as [[r s2] t2].
      * by rewrite !(announceResponse_dangling h _ s ctrl Hp Hc).
    + by rewrite !announceResponse_absent.
  - intros ctrl c pidY Hp Hc Hy Hne Hadd.
    rewrite (announceResponse_present h _ s ctrl c Hp Hc).
    rewrite for_range_cons, (Hskip ctrl) by done.
    rewrite for_range_cons.
    rewrite (announceResponse_peer_other h ctrl y _ pidY Hy) by done.
    simpl. rewrite Hadd, Hc. simpl. by eexists _, _.
Qed.



End EventProperties.

(** ** The events on the example data *)

#[local] Existing Instance connStateModel_ops.
#[local] Existing Instance announceQueueModel_ops.
#[local] Existing Instance torlibModel_ops.

(** A response for [ex_h] on a Scheduler that knows no torrent. *)
Lemma announceResponse_absent_returns_witness :
  announceResponseEvent_Apply ex_h [ex_peer_y] ex_s_unknown
    = (Some tt, ex_s_unknown,
       [Log DebugLevel "Applying announce response event";
        Log InfoLevel "Dispatcher closed after announce response received"]).
Proof.
  apply (announceResponse_absent_returns ex_h [ex_peer_y] ex_s_unknown).
  reflexivity.
Defined.

(** C1 as the spec words it fails on [ex_s_unknown]: a response for
    [ex_h], which has no control there, comes back without a [Ready] call
    and with the announce queue as it was, [ex_dispatcher] still in
    flight. *)
Lemma announceResponse_absent_not_marked_ready :
  torrentControls ex_s_unknown !! ex_h = None
  ∧ ¬ (∃ r s' tr,
         announceResponseEvent_Apply ex_h [ex_peer_y] ex_s_unknown = (r, s', tr)
         ∧ (ready_calls tr ≠ []
            ∨ announceQueue s' ≠ announceQueue ex_s_unknown)).
Proof.
  split; [reflexivity|].
  intros (r & s' & tr & Hrun & Hready).
  vm_compute in Hrun. injection Hrun as <- <- <-.
  by destruct Hready as [Hready|Hready]; apply Hready.
Qed.

(** [ex_h] completes while channels 7 and 8 wait for it. *)
Lemma completedDispatcher_signals_waiters_witness :
  ∃ s' tr,
    completedDispatcherEvent_Apply ex_dispatcher ex_s_waiting = (Some tt, s', tr)
    ∧ chan_sends tr = [7; 8]%nat
    ∧ torrentControls s' = torrentControls ex_s_waiting
    ∧ heap s' = <[1%positive := ex_ctrl [7; 8]%nat true]> (heap ex_s_waiting).
Proof.
  apply (completedDispatcher_signals_waiters ex_dispatcher ex_s_waiting
           1%positive (ex_ctrl [7; 8]%nat false)); reflexivity.
Defined.

(** C2 as the spec words it fails on [ex_s_waiting]: after the event the
    control of [ex_h] still lists both waiters. *)
Lemma completedDispatcher_keeps_Errors :
  torrentControls ex_s_waiting
    !! Torrent_InfoHash (dispatcher_Torrent ex_dispatcher) = Some 1%positive
  ∧ heap ex_s_waiting !! 1%positive = Some (ex_ctrl [7; 8]%nat false)
  ∧ ¬ (∃ r s' tr c',
         completedDispatcherEvent_Apply ex_dispatcher ex_s_waiting = (r, s', tr)
         ∧ heap s' !! 1%positive = Some c'
         ∧ Errors c' = []).
Proof.
  split_and!; [reflexivity|reflexivity|].
  intros (r & s' & tr & c' & Hrun & Hc' & Hnil).
  vm_compute in Hrun. injection Hrun as <- <- <-.
  vm_compute in Hc'. injection Hc' as <-. discriminate Hnil.
Qed.

(** With room for one conn: the first peer is dialled, the second meets
    [errTorrentAtCapacity], and the third is never looked at. *)
Lemma announceResponse_AddPending_outcomes_witness :
  add_pending_calls
    (announceResponseEvent_Apply ex_h
       ([ex_peer_y] ++ ex_peer_z :: [ex_peer_w]) ex_s_room1).2
    = [11%N; 12%N]
  ∧ dials
      (announceResponseEvent_Apply ex_h
         ([ex_peer_y] ++ ex_peer_z :: [ex_peer_w]) ex_s_room1).2
    = [(11%N, "10.0.0.2", 6882, ex_torrent)].
Proof.
  pose (pre := for_range [ex_peer_y] (announceResponse_peer ex_h 1%positive)
                 (set_announceQueue (Ready ex_dispatcher) ex_s_room1)).
  pose proof (announceResponse_AddPending_outcomes
                ex_h [ex_peer_y] [ex_peer_w] ex_peer_z ex_s_room1
                1%positive (ex_ctrl [] false) pre.1.2 pre.2 12%N
                eq_refl eq_refl eq_refl eq_refl ltac:(discriminate)) as W.
  rewrite W. split; reflexivity.
Defined.

(** The tracker echoes the Scheduler back at the head of the list. *)
Lemma announceResponse_skips_self_witness :
  announceResponseEvent_Apply ex_h ([] ++ ex_peer_self :: [ex_peer_y]) ex_s_room2
    = announceResponseEvent_Apply ex_h ([] ++ [ex_peer_y]) ex_s_room2
  ∧ ∃ s' tr,
      announceResponseEvent_Apply ex_h [ex_peer_self; ex_peer_y] ex_s_room2
        = (Some tt, s', tr)
      ∧ add_pending_calls tr = [11%N]
      ∧ dials tr = [(11%N, "10.0.0.2", 6882, ex_torrent)].
Proof.
  pose proof (announceResponse_skips_self ex_h [] [ex_peer_y]
                ex_peer_self ex_peer_y ex_s_room2 eq_refl) as (_ & W1 & W2).
  split; [exact W1|].
  apply (W2 1%positive (ex_ctrl [] false) 11%N);
    [reflexivity|reflexivity|reflexivity|discriminate|reflexivity].
Defined.

(** A dispatcher completes on a Scheduler that has no control for it. *)
Lemma completedDispatcher_always_done_witness :
  ∃ tr,
    completedDispatcherEvent_Apply ex_dispatcher ex_s_unknown
      = (Some tt, set_announceQueue (Done ex_dispatcher) ex_s_unknown, tr)
    ∧ chan_sends tr = [].
Proof.
  apply (proj2 (completedDispatcher_always_done ex_dispatcher ex_s_unknown)).
  reflexivity.
Defined.

(** A submission for [ex_h] after it completed. *)
Lemma newTorrent_complete_frame_witness :
  ∃ tr,
    newTorrentEvent_Apply ex_torrent 9%nat ex_s_complete
      = (Some tt, ex_s_complete, tr)
    ∧ chan_sends tr = [9%nat]
    ∧ (∀ t', Call_New t' ∉ tr).
Proof.
  apply (newTorrent_complete_frame ex_torrent 9%nat ex_s_complete
           1%positive (ex_ctrl [7; 8]%nat true)); reflexivity.
Defined.

(** A first submission, one after completion, one while waiting, and
    three submissions followed by the completion. *)
Lemma newTorrent_admits_and_waits_witness :
  (newTorrentEvent_Apply ex_torrent 7%nat ex_s_unknown).2
    = [Log DebugLevel "Applying new torrent event"; Call_New ex_torrent;
       Call_Add (ex_factory ex_torrent); Call_InitCapacity ex_h]
  ∧ newTorrentEvent_Apply ex_torrent 9%nat ex_s_complete
    = (Some tt, ex_s_complete,
       [Log DebugLevel "Applying new torrent event"; Chan_send_nil 9%nat])
  ∧ newTorrentEvent_Apply ex_torrent 9%nat ex_s_waiting
    = (Some tt,
       set_heap (insert 1%positive (ex_ctrl [7; 8; 9]%nat false)) ex_s_waiting,
       [Log DebugLevel "Applying new torrent event"])
  ∧ ∃ s1 tr1 s2 tr2,
      Run (newTorrentEvent ex_torrent <$> [7; 8; 9]%nat) ex_s_unknown
        = (Some tt, s1, tr1)
      ∧ chan_sends tr1 = []
      ∧ completedDispatcherEvent_Apply ex_dispatcher s1 = (Some tt, s2, tr2)
      ∧ chan_sends tr2 = [7; 8; 9]%nat.
Proof.
  split_and!.
  - pose proof (newTorrent_admits_and_waits ex_torrent 7%nat ex_s_unknown)
      as (W & _).
    destruct (W eq_refl) as (_ & _ & ->). reflexivity.
  - pose proof (newTorrent_admits_and_waits ex_torrent 9%nat ex_s_complete)
      as (_ & W & _).
    apply (W 1%positive (ex_ctrl [7; 8]%nat true)); reflexivity.
  - pose proof (newTorrent_admits_and_waits ex_torrent 9%nat ex_s_waiting)
      as (_ & _ & W & _).
    apply (W 1%positive (ex_ctrl [7; 8]%nat false)); reflexivity.
  - pose proof (newTorrent_admits_and_waits ex_torrent 7%nat ex_s_unknown)
      as (_ & _ & _ & W).
    destruct (W ex_dispatcher [7; 8; 9]%nat eq_refl eq_refl)
      as (s1 & tr1 & s2 & tr2 & H1 & H2 & H3 & H4 & _).
    by exists s1, tr1, s2, tr2.
Defined.





(** The tick closes the idle conn and the old one, and not the fresh one
    (scenario S3 of the spec, with an aged conn added). *)
Example preemptionTick_on_three_conns :
  closes (preemptionTickEvent_Apply ex_s_conns).2
    = [ex_conn_idle; ex_conn_old].
Proof. reflexivity. Qed.

(** A closed conn whose pair is still pending: [Blacklist] refuses, the
    refusal is logged, and the event returns with the conn out of the active
    set and its unit of capacity back. *)
Example closedConn_on_pending_pair :
  closedConnEvent_Apply ex_conn_idle ex_s_twice
    = (Some tt,
       ex_known
         {| cs_MaxConnsPerTorrent := 2; cs_BlacklistDuration := 30;
            cs_now := 1000; cs_capacity := {[ ex_h := 1%nat ]};
            cs_pending := [(11%N, ex_h)]; cs_active := [];
            cs_blacklist := [] |} [] false,
       [Log DebugLevel "Applying closed conn event";
        Call_DeleteActive ex_conn_idle;
        Call_Blacklist 11%N ex_h (Some (errOther "conn is pending or active"));
        Log InfoLevel "Error blacklisting active conn: %s"]).
Proof. vm_compute. reflexivity. Qed.

(** With room for two conns, a response with three peers starts two
    dials; [AddPending] is called for the third peer, returns
    [errTorrentAtCapacity], and the loop ends there, whatever follows in the
    list. *)
Example announceResponse_capacity_two :
  add_pending_calls
    (announceResponseEvent_Apply ex_h [ex_peer_y; ex_peer_z; ex_peer_w]
       ex_s_room2).2
    = [11%N; 12%N; 13%N]
  ∧ dials
      (announceResponseEvent_Apply ex_h [ex_peer_y; ex_peer_z; ex_peer_w]
         ex_s_room2).2
    = [(11%N, "10.0.0.2", 6882, ex_torrent);
       (12%N, "10.0.0.3", 6883, ex_torrent)]
  ∧ add_pending_calls
      (announceResponseEvent_Apply ex_h
         [ex_peer_y; ex_peer_z; ex_peer_w; ex_peer_self; ex_peer_y]
         ex_s_room2).2
    = [11%N; 12%N; 13%N].
Proof. split_and!; reflexivity. Qed.

(** ** Properties of whole runs *)

Section RunProperties.
Context {CS AQ : Type} `{!ConnStateOps CS, !AnnounceQueueOps AQ, !TorlibOps}
  `{!ConnStateMoreOps CS, !AnnounceQueueNextOps AQ}.

Implicit Types (s : Scheduler CS AQ) (h : InfoHash) (p : ptr).

Local Ltac run :=
  unfold mbind, mret, M_bind, M_ret, ME_bind, ME_ret, gets, modify, emit,
    emit_more, lift, panic; simpl.

(** The fields no event assigns. *)
Local Abbreviation fixed s s' :=
  (peerID s' = peerID s ∧ config s' = config s
   ∧ dispatcherFactory s' = dispatcherFactory s).

(** A trace without [AddPending] and without handshake goroutines. *)
Local Abbreviation quiet tr :=
  (Forall (λ a, match a with
                | Call_AddPending _ _ _ | Go_initOutgoingConn _ _ _ _ => False
                | _ => True
                end) tr).

(** *** Traces *)

Lemma paired_from_app held (t1 t2 : list action_more) :
  paired_from held t1 = true →
  paired_from held (t1 ++ t2) = paired_from None t2.
Proof.
  revert held. induction t1 as [|a t1 IH]; intros held Ht1.
  - by destruct held.
  - simpl in *. destruct held as [ph|].
    + apply andb_true_iff in Ht1 as [-> Ht1]. simpl. by apply IH.
    + destruct (reserved a); [by apply IH|].
      apply andb_true_iff in Ht1 as [-> Ht1]. simpl. by apply IH.
Qed.

Lemma well_paired_app (t1 t2 : list action_more) :
  well_paired t1 = true → well_paired t2 = true →
  well_paired (t1 ++ t2) = true.
Proof.
  unfold well_paired. intros Ht1 Ht2. by rewrite paired_from_app.
Qed.

Lemma well_paired_quiet (tr : list action) :
  quiet tr → well_paired (Core <$> tr) = true.
Proof.
  unfold well_paired. induction 1 as [|a tr Ha Htr IH]; [done|].
  rewrite fmap_cons. by destruct a.
Qed.

Lemma quiet_sends (errs : list errchan) : quiet (Chan_send_nil <$> errs).
Proof. induction errs; by constructor. Qed.

(** *** The events one by one, from a Scheduler whose controls exist *)

Lemma closedConn_spec (c : conn) s :
  ∃ s' tr,
    closedConnEvent_Apply c s = (Some tt, s', tr)
    ∧ torrentControls s' = torrentControls s ∧ heap s' = heap s
    ∧ fixed s s' ∧ quiet tr.
Proof.
  unfold closedConnEvent_Apply, connState_DeleteActive, connState_Blacklist,
    logf.
  run. destruct (Blacklist _ _ _) as [[e|] cs2]; simpl;
    eexists _, _; (split_and!; [done..|]); by repeat constructor.
Qed.

Lemma announceResponse_loop_spec h ctrl c (ps : list PeerInfo) :
  ∀ s,
    heap s !! ctrl = Some c →
    ∃ r s' tr,
      for_range ps (announceResponse_peer h ctrl) s = (Some r, s', tr)
      ∧ torrentControls s' = torrentControls s ∧ heap s' = heap s
      ∧ fixed s s' ∧ well_paired (Core <$> tr) = true.
Proof.
  induction ps as [|pi ps IH]; intros s Hc.
  - by eexists _, _, _.
  - rewrite for_range_cons.
    assert (∃ r1 s1 t1,
      announceResponse_peer h ctrl pi s = (Some r1, s1, t1)
      ∧ torrentControls s1 = torrentControls s ∧ heap s1 = heap s
      ∧ fixed s s1 ∧ well_paired (Core <$> t1) = true)
      as (r1 & s1 & t1 & -> & Htcs & Hheap & Hfix & Hpair).
    { destruct (NewPeerID (PeerInfo_PeerID pi)) as [pid|e] eqn:Hparse.
      - destruct (decide (pid = peerID s)) as [->|Hne].
        + rewrite announceResponse_peer_self by done. by eexists _, _, _.
        + rewrite (announceResponse_peer_other h ctrl pi s pid Hparse Hne).
          rewrite Hc.
          destruct (AddPending pid h (connState s)) as [[e|] cs']; simpl.
          * destruct (decide (e = errTorrentAtCapacity));
              by eexists _, _, _.
          * eexists _, _, _. split_and!; try done.
            unfold well_paired. simpl. by rewrite bool_decide_true.
      - rewrite (announceResponse_peer_unparsed h ctrl pi s e Hparse).
        by eexists _, _, _. }
    destruct r1.
    + destruct (IH s1) as (r & s' & tr & -> & Htcs' & Hheap' & Hfix' & Hpair').
      { by rewrite Hheap. }
      destruct Hfix as (? & ? & ?), Hfix' as (? & ? & ?).
      eexists _, _, _. split_and!; try done; try congruence.
      rewrite fmap_app. by apply well_paired_app.
    + by eexists _, _, _.
Qed.

Lemma announceResponse_spec h (peers : list PeerInfo) s :
  controls_exist s →
  ∃ s' tr,
    announceResponseEvent_Apply h peers s = (Some tt, s', tr)
    ∧ torrentControls s' = torrentControls s ∧ heap s' = heap s
    ∧ fixed s s' ∧ well_paired (Core <$> tr) = true.
Proof.
  intros Hwf.
  destruct (torrentControls s !! h) as [ctrl|] eqn:Hp.
  - destruct (Hwf h ctrl Hp) as [c Hc].
    rewrite (announceResponse_present h peers s ctrl c Hp Hc).
    destruct (announceResponse_loop_spec h ctrl c peers
                (set_announceQueue (Ready (Dispatcher c)) s) Hc)
      as (r & s' & tr & -> & Htcs & Hheap & Hfix & Hpair).
    simpl in Htcs, Hheap, Hfix. destruct Hfix as (? & ? & ?).
    by eexists _, _.
  - rewrite (announceResponse_absent h peers s Hp). by eexists _, _.
Qed.

Lemma newTorrent_spec (t : Torrent) (errc : errchan) s :
  controls_exist s →
  ∃ s' tr,
    newTorrentEvent_Apply t errc s = (Some tt, s', tr)
    ∧ controls_step s s' ∧ fixed s s' ∧ quiet tr.
Proof.
  intros Hwf.
  destruct (torrentControls s !! Torrent_InfoHash t) as [p|] eqn:Hp.
  - destruct (Hwf _ p Hp) as [c Hc].
    destruct (Complete c) eqn:Hdone.
    + rewrite (newTorrent_complete t errc s p c Hp Hc Hdone).
      eexists _, _. split_and!; try done; [by apply step_same|].
      by repeat constructor.
    + rewrite (newTorrent_incomplete t errc s p c Hp Hc Hdone).
      eexists _, _. split_and!; try done; [|by repeat constructor].
      by eapply (step_wait _ _ (Torrent_InfoHash t) p c errc).
  - rewrite (newTorrent_absent t errc s Hp).
    eexists _, _. split_and!; try done; [|by repeat constructor].
    eapply (step_admit _ _ (Torrent_InfoHash t) (fresh (dom (heap s)))
              {| Dispatcher := dispatcherFactory s t; Errors := [errc];
                 Complete := false |}); try done.
    apply not_elem_of_dom, is_fresh.
Qed.

Lemma completedDispatcher_spec (d : dispatcher) s :
  controls_exist s →
  ∃ s' tr,
    completedDispatcherEvent_Apply d s = (Some tt, s', tr)
    ∧ controls_step s s' ∧ fixed s s' ∧ quiet tr.
Proof.
  intros Hwf.
  destruct (torrentControls s !! Torrent_InfoHash (dispatcher_Torrent d))
    as [p|] eqn:Hp.
  - destruct (Hwf _ p Hp) as [c Hc].
    rewrite (completedDispatcher_present d s p c Hp Hc).
    eexists _, _. split_and!; try done.
    + by eapply (step_complete _ _ _ p c).
    + repeat constructor. apply quiet_sends.
  - rewrite (completedDispatcher_absent d s Hp).
    eexists _, _. split_and!; try done; [by apply step_same|].
    by repeat constructor.
Qed.

Lemma preemptionTick_spec s :
  controls_exist s →
  ∃ s' tr,
    preemptionTickEvent_Apply s = (Some tt, s', tr)
    ∧ controls_step s s' ∧ fixed s s' ∧ quiet tr.
Proof.
  intros Hwf.
  destruct (preemptionTick_run s Hwf)
    as (s' & tr & -> & (? & ? & ? & ? & ? & ?) & ? & ? & ? & _).
  eexists _, _. split_and!; try done. by apply step_drop.
Qed.

(** Every event of the first kind. *)
Lemma Apply_spec (e : event) s :
  controls_exist s →
  ∃ s' tr,
    Apply e s = (Some tt, s', tr)
    ∧ controls_step s s' ∧ fixed s s' ∧ well_paired (Core <$> tr) = true.
Proof.
  intros Hwf. destruct e as [c|h ps|t errc|d|]; simpl.
  - destruct (closedConn_spec c s)
      as (s' & tr & -> & ? & ? & (? & ? & ?) & ?).
    eexists _, _. split_and!; try done; [by apply step_same|].
    by apply well_paired_quiet.
  - destruct (announceResponse_spec h ps s Hwf)
      as (s' & tr & -> & ? & ? & (? & ? & ?) & ?).
    eexists _, _. split_and!; try done. by apply step_same.
  - destruct (newTorrent_spec t errc s Hwf)
      as (s' & tr & -> & ? & (? & ? & ?) & ?).
    eexists _, _. split_and!; try done. by apply well_paired_quiet.
  - destruct (completedDispatcher_spec d s Hwf)
      as (s' & tr & -> & ? & (? & ? & ?) & ?).
    eexists _, _. split_and!; try done. by apply well_paired_quiet.
  - destruct (preemptionTick_spec s Hwf)
      as (s' & tr & -> & ? & (? & ? & ?) & ?).
    eexists _, _. split_and!; try done. by apply well_paired_quiet.
Qed.

(** The other events leave [torrentControls] and the controls alone, and
    never panic. *)
Lemma Apply_more_rest_spec (e : event_more) s :
  (∀ e0, e ≠ coreEvent e0) →
  ∃ s' tr,
    Apply_more e s = (Some tt, s', tr)
    ∧ torrentControls s' = torrentControls s ∧ heap s' = heap s
    ∧ fixed s s' ∧ well_paired tr = true.
Proof.
  intros Hrest. destruct e as [e0|p h|nc hs| |d|]; simpl.
  - by destruct (Hrest e0).
  - unfold failedHandshakeEvent_Apply, connState_DeletePending,
      connState_Blacklist, logf.
    run. destruct (Blacklist _ _ _) as [[e|] cs2]; simpl; by eexists _, _.
  - unfold incomingHandshakeEvent_Apply, connState_AddPending, logf.
    run. destruct (AddPending _ _ _) as [[e|] cs2]; simpl;
      eexists _, _; split_and!; try done.
    unfold well_paired. simpl. by rewrite bool_decide_true.
  - unfold announceTickEvent_Apply, announceQueue_Next, logf.
    run. destruct (Next _) as [[d|] q']; simpl; by eexists _, _.
  - unfold announceFailureEvent_Apply, announceQueue_Ready, logf.
    run. by eexists _, _.
  - unfold cleanupBlacklistEvent_Apply, connState_DeleteStaleBlacklistEntries,
      logf.
    run. by eexists _, _.
Qed.

Lemma Apply_more_spec (e : event_more) s :
  controls_exist s →
  ∃ s' tr,
    Apply_more e s = (Some tt, s', tr)
    ∧ controls_step s s' ∧ fixed s s' ∧ well_paired tr = true.
Proof.
  intros Hwf. destruct e as [e0| | | | |].
  1: { simpl. unfold lift.
       destruct (Apply_spec e0 s Hwf) as (s' & tr & -> & ? & ? & ?).
       by eexists _, _. }
  all: match goal with |- context [Apply_more ?e ?s0] =>
         destruct (Apply_more_rest_spec e s0)
           as (s' & tr & -> & ? & ? & (? & ? & ?) & ?); [done|]
       end;
       eexists _, _; split_and!; try done; by apply step_same.
Qed.

(** *** Moves of the controls *)

Lemma controls_step_exist s s' :
  controls_exist s → controls_step s s' → controls_exist s'.
Proof.
  unfold controls_exist.
  intros Hwf [Htcs Hheap|h p c Hno Hfresh Hnot Htcs Hheap
              |h p c errc Hp Hc Hnot Htcs Hheap|h p c Hp Hc Htcs Hheap
              |Hnone Hsome Hheap];
    intros h' p' Hp'.
  - rewrite Htcs in Hp'. rewrite Hheap. by apply (Hwf h' p').
  - rewrite Htcs in Hp'. rewrite Hheap.
    apply lookup_insert_Some in Hp' as [[_ <-]|[_ Hp']].
    + rewrite lookup_insert_eq. by eexists.
    + destruct (Hwf h' p' Hp') as [c' Hc'].
      rewrite lookup_insert_ne; [by eexists|]. by intros ->; simplify_eq.
  - rewrite Htcs in Hp'. rewrite Hheap.
    destruct (decide (p = p')) as [->|Hne].
    + rewrite lookup_insert_eq. by eexists.
    + rewrite lookup_insert_ne by done. by apply (Hwf h' p').
  - rewrite Htcs in Hp'. rewrite Hheap.
    destruct (decide (p = p')) as [->|Hne].
    + rewrite lookup_insert_eq. by eexists.
    + rewrite lookup_insert_ne by done. by apply (Hwf h' p').
  - rewrite Hheap. destruct (torrentControls s !! h') as [q|] eqn:Hq.
    + destruct (Hsome h' q Hq) as [Hkeep|[Hgone _]]; [|congruence].
      rewrite Hkeep in Hp'. simplify_eq. by apply (Hwf h' p').
    + rewrite (Hnone h' Hq) in Hp'. done.
Qed.

(** What every move keeps, every run keeps. *)
Lemma Run_more_inv (P : Scheduler CS AQ → Prop) :
  (∀ s s', P s → controls_step s s' → fixed s s' → P s') →
  ∀ (es : list event_more) s,
    controls_exist s → P s →
    ∃ s' tr,
      Run_more es s = (Some tt, s', tr)
      ∧ controls_exist s' ∧ P s' ∧ well_paired tr = true.
Proof.
  intros Hkeep. induction es as [|e es IH]; intros s Hwf HP.
  - by exists s, [].
  - simpl. run.
    destruct (Apply_more_spec e s Hwf) as (s1 & t1 & -> & Hstep & Hfix & Hp1).
    destruct (IH s1) as (s' & tr & -> & Hwf' & HP' & Hp2).
    { by eapply controls_step_exist. }
    { by eapply Hkeep. }
    eexists _, _. split_and!; try done. by apply well_paired_app.
Qed.

(** *** Runs *)

(** X1.  The events keep [torrentControls] free of nil pointers: from a
    Scheduler where every entry points to a control, whatever events are
    applied and however the run ends, every entry of the Scheduler it
    leaves points to a control. *)
Theorem Run_more_controls_exist (es : list event_more) s r s' tr :
  controls_exist s →
  Run_more es s = (r, s', tr) →
  controls_exist s'.
Proof.
  intros Hwf Hrun.
  destruct (Run_more_inv (λ _, True) (λ _ _ _ _ _, I) es s Hwf I)
    as (s1 & tr1 & Hrun1 & Hwf' & _).
  rewrite Hrun1 in Hrun. by simplify_eq.
Qed.

(** X2.  From such a Scheduler an event changes [torrentControls] and
    the controls by one of five moves: nothing, a torrent admitted with a
    new control that is not complete, a waiter appended to a control that is
    not complete, a control marked complete, or entries dropped whose
    controls are complete.  Only [newTorrentEvent],
    [completedDispatcherEvent] and [preemptionTickEvent] change them at
    all. *)
Theorem Apply_more_moves (e : event_more) s r s' tr :
  controls_exist s →
  Apply_more e s = (r, s', tr) →
  controls_step s s'
  ∧ match e with
    | coreEvent (newTorrentEvent _ _)
    | coreEvent (completedDispatcherEvent _)
    | coreEvent preemptionTickEvent => True
    | _ => torrentControls s' = torrentControls s ∧ heap s' = heap s
    end.
Proof.
  intros Hwf Hrun.
  destruct (Apply_more_spec e s Hwf) as (s0 & tr0 & Hrun0 & Hstep & _).
  rewrite Hrun0 in Hrun. injection Hrun as <- <- <-.
  split; [done|].
  destruct e as [[c|h ps|t errc|d|]|p h|nc hs| |d|]; try done.
  - simpl in Hrun0. unfold lift in Hrun0.
    destruct (closedConn_spec c s) as (s1 & t1 & Hc & ? & ? & _).
    simpl in Hrun0. rewrite Hc in Hrun0. by simplify_eq.
  - simpl in Hrun0. unfold lift in Hrun0.
    destruct (announceResponse_spec h ps s Hwf) as (s1 & t1 & Hc & ? & ? & _).
    simpl in Hrun0. rewrite Hc in Hrun0. by simplify_eq.
  - destruct (Apply_more_rest_spec (failedHandshakeEvent p h) s)
      as (s1 & t1 & Hc & ? & ? & _); [done|].
    rewrite Hc in Hrun0. by simplify_eq.
  - destruct (Apply_more_rest_spec (incomingHandshakeEvent nc hs) s)
      as (s1 & t1 & Hc & ? & ? & _); [done|].
    rewrite Hc in Hrun0. by simplify_eq.
  - destruct (Apply_more_rest_spec announceTickEvent s)
      as (s1 & t1 & Hc & ? & ? & _); [done|].
    rewrite Hc in Hrun0. by simplify_eq.
  - destruct (Apply_more_rest_spec (announceFailureEvent d) s)
      as (s1 & t1 & Hc & ? & ? & _); [done|].
    rewrite Hc in Hrun0. by simplify_eq.
  - destruct (Apply_more_rest_spec cleanupBlacklistEvent s)
      as (s1 & t1 & Hc & ? & ? & _); [done|].
    rewrite Hc in Hrun0. by simplify_eq.
Qed.

(** X3.  No event assigns the Scheduler's [peerID], [config] or
    [dispatcherFactory]: after any run they are what they were. *)
Theorem Run_more_keeps_identity (es : list event_more) s :
  controls_exist s →
  ∃ s' tr,
    Run_more es s = (Some tt, s', tr)
    ∧ peerID s' = peerID s ∧ config s' = config s
    ∧ dispatcherFactory s' = dispatcherFactory s.
Proof.
  intros Hwf.
  destruct (Run_more_inv
              (λ s0, peerID s0 = peerID s ∧ config s0 = config s
                     ∧ dispatcherFactory s0 = dispatcherFactory s)) with es s
    as (s' & tr & Hrun & _ & (? & ? & ?) & _); try done.
  { intros s0 s1 (? & ? & ?) _ (? & ? & ?). split_and!; congruence. }
  by exists s', tr.
Qed.

(** X4.  A control that is complete is never written again: after any run
    it is exactly what it was, waiters included, whether its entry in
    [torrentControls] stays, is dropped, or is replaced by a new control. *)
Theorem complete_control_is_final (es : list event_more) s p c :
  controls_exist s →
  heap s !! p = Some c →
  Complete c = true →
  ∃ s' tr, Run_more es s = (Some tt, s', tr) ∧ heap s' !! p = Some c.
Proof.
  intros Hwf Hc Hdone.
  destruct (Run_more_inv (λ s0, heap s0 !! p = Some c)) with es s
    as (s' & tr & Hrun & _ & Hc' & _); try done; [|by exists s', tr].
  clear Hwf Hc. intros s0 s1 Hc
    [Htcs Hheap|h0 p0 c0 Hno Hfresh Hnot Htcs Hheap
    |h0 p0 c0 errc Hp Hc0 Hnot Htcs Hheap|h0 p0 c0 Hp Hc0 Htcs Hheap
    |Hnone Hsome Hheap] _; rewrite Hheap; try done.
  - rewrite lookup_insert_ne; [done|]. intros ->. congruence.
  - rewrite lookup_insert_ne; [done|]. intros ->. congruence.
  - destruct (decide (p0 = p)) as [->|Hne]; [|by rewrite lookup_insert_ne].
    rewrite lookup_insert_eq. simplify_eq. destruct c. simpl in *. by subst.
Qed.


(** X5.  Waiters are not forgotten and a torrent is not dropped before it
    completes: after any run, a control that existed still has its
    dispatcher, its list of waiters has only been extended at the end, and
    as long as it is not complete its info-hash still maps to it. *)
Theorem waiters_only_grow (es : list event_more) s h p c :
  controls_exist s →
  torrentControls s !! h = Some p →
  heap s !! p = Some c →
  ∃ s' tr c',
    Run_more es s = (Some tt, s', tr)
    ∧ heap s' !! p = Some c'
    ∧ Dispatcher c' = Dispatcher c
    ∧ Errors c `prefix_of` Errors c'
    ∧ (Complete c' = false → torrentControls s' !! h = Some p).
Proof.
  intros Hwf Hp Hc.
  destruct (Run_more_inv
              (λ s0, ∃ c', heap s0 !! p = Some c'
                           ∧ Dispatcher c' = Dispatcher c
                           ∧ Errors c `prefix_of` Errors c'
                           ∧ (Complete c' = false →
                              torrentControls s0 !! h = Some p))) with es s
    as (s' & tr & Hrun & _ & (c' & ? & ? & ? & ?) & _); try done.
  - clear Hwf Hp Hc. intros s0 s1 (c' & Hc' & Hdisp & Hpre & Hkeep)
      [Htcs Hheap|h0 p0 c0 Hno Hfresh Hnot Htcs Hheap
      |h0 p0 c0 errc Hp0 Hc0 Hnot Htcs Hheap|h0 p0 c0 Hp0 Hc0 Htcs Hheap
      |Hnone Hsome Hheap] _; rewrite Hheap.
    + exists c'. by rewrite Htcs.
    + exists c'. rewrite Htcs.
      rewrite lookup_insert_ne by (intros ->; congruence).
      split_and!; try done. intros Hnot'.
      rewrite lookup_insert_ne; [by apply Hkeep|]. intros ->.
      rewrite Hkeep in Hno; done.
    + rewrite Htcs. destruct (decide (p0 = p)) as [->|Hne].
      * rewrite lookup_insert_eq. simplify_eq. eexists.
        split_and!; try done; simpl; [by apply prefix_app_r|].
        intros _. by apply Hkeep.
      * exists c'. by rewrite lookup_insert_ne.
    + rewrite Htcs. destruct (decide (p0 = p)) as [->|Hne].
      * rewrite lookup_insert_eq. simplify_eq. by eexists.
      * exists c'. by rewrite lookup_insert_ne.
    + exists c'. split_and!; try done. intros Hnot.
      destruct (Hsome h p (Hkeep Hnot)) as [?|(_ & c1 & Hc1 & Hdone)]; [done|].
      congruence.
  - exists c. by split_and!.
  - by exists s', tr, c'.
Qed.

(** X6.  In the trace of any run, every [AddPending] that returns [nil] is
    followed at once by the start of the handshake goroutine for the pair it
    reserved ([initOutgoingConn] for that peer, or [initIncomingConn] for
    that handshake), and no handshake goroutine is started anywhere else. *)
Theorem Run_more_well_paired (es : list event_more) s :
  controls_exist s →
  ∃ s' tr, Run_more es s = (Some tt, s', tr) ∧ well_paired tr = true.
Proof.
  intros Hwf.
  destruct (Run_more_inv (λ _, True) (λ _ _ _ _ _, I) es s Hwf I)
    as (s' & tr & Hrun & _ & _ & Hpair).
  by exists s', tr.
Qed.

(** *** Single events, once more *)

(** X8.  An entry of an announce response whose [PeerID] does not parse
    costs a log line and nothing else: the event ends in the same Scheduler,
    with the same [AddPending] calls and the same dials, as on the list
    without that entry. *)
Theorem announceResponse_skips_unparsed
    h (pre post : list PeerInfo) (p : PeerInfo) (e : error) s :
  NewPeerID (PeerInfo_PeerID p) = inr e →
  (announceResponseEvent_Apply h (pre ++ p :: post) s).1
    = (announceResponseEvent_Apply h (pre ++ post) s).1
  ∧ add_pending_calls (announceResponseEvent_Apply h (pre ++ p :: post) s).2
    = add_pending_calls (announceResponseEvent_Apply h (pre ++ post) s).2
  ∧ dials (announceResponseEvent_Apply h (pre ++ p :: post) s).2
    = dials (announceResponseEvent_Apply h (pre ++ post) s).2.
Proof.
  intros Hparse.
  destruct (torrentControls s !! h) as [ctrl|] eqn:Hp.
  - destruct (heap s !! ctrl) as [c|] eqn:Hc.
    + rewrite !(announceResponse_present h _ s ctrl c Hp Hc).
      rewrite !for_range_app.
      destruct (for_range pre _ _) as [[[[]|] s1] t1] eqn:Hpre; try done.
      rewrite for_range_cons.
      rewrite (announceResponse_peer_unparsed h ctrl p s1 e Hparse).
      destruct (for_range post _ s1) as [[r s2] t2]. simpl.
      unfold add_pending_calls, dials.
      by rewrite !omap_app.
    + by rewrite !(announceResponse_dangling h _ s ctrl Hp Hc).
  - by rewrite !announceResponse_absent.
Qed.

(** The calls of an announce response come from its list: an action is
    fine when, if it is an [AddPending], it is for the event's info-hash and
    for the [PeerID] of an entry of [all] that is not this Scheduler's, and
    if it is a dial, it is for such an entry, with its IP and port, and for
    the torrent [t]. *)
Local Abbreviation from_list h me all t :=
  (λ a : action,
     match a with
     | Call_AddPending p h' _ =>
         h' = h ∧ p ≠ me
         ∧ ∃ pi, pi ∈ all ∧ NewPeerID (PeerInfo_PeerID pi) = inl p
     | Go_initOutgoingConn p ip port t' =>
         p ≠ me ∧ t' = t
         ∧ ∃ pi, pi ∈ all ∧ NewPeerID (PeerInfo_PeerID pi) = inl p
                 ∧ PeerInfo_IP pi = ip ∧ PeerInfo_Port pi = port
     | _ => True
     end).

Lemma announceResponse_loop_from_list h ctrl c me (all ps : list PeerInfo) :
  ps ⊆ all →
  ∀ s,
    peerID s = me →
    heap s !! ctrl = Some c →
    Forall (from_list h me all (dispatcher_Torrent (Dispatcher c)))
      (for_range ps (announceResponse_peer h ctrl) s).2.
Proof.
  induction ps as [|pi ps IH]; intros Hsub s Hme Hc; [by constructor|].
  assert (Hin : pi ∈ all) by (apply Hsub; left).
  assert (Hsub' : ps ⊆ all) by (intros x Hx; apply Hsub; by right).
  rewrite for_range_cons.
  destruct (announceResponse_peer h ctrl pi s) as [[r1 s1] t1] eqn:Hpi.
  assert (Ht1 : Forall (from_list h me all (dispatcher_Torrent (Dispatcher c)))
                  t1).
  { destruct (NewPeerID (PeerInfo_PeerID pi)) as [pid|e] eqn:Hparse.
    - destruct (decide (pid = peerID s)) as [->|Hne].
      + rewrite announceResponse_peer_self in Hpi by done.
        simplify_eq. constructor.
      + rewrite (announceResponse_peer_other h ctrl pi s pid Hparse Hne) in Hpi.
        rewrite Hc in Hpi.
        assert (Hcall : ∀ res,
          from_list h me all (dispatcher_Torrent (Dispatcher c))
            (Call_AddPending pid h res)).
        { intros res. split_and!; [done|congruence|by exists pi]. }
        destruct (AddPending pid h (connState s)) as [[e|] cs']; simpl in Hpi.
        * destruct (decide (e = errTorrentAtCapacity)); simplify_eq;
            (constructor; [apply (Hcall None)|]); by repeat constructor.
        * simplify_eq. constructor; [apply (Hcall None)|].
          constructor; [|constructor].
          split_and!; [done|done|by exists pi].
    - rewrite (announceResponse_peer_unparsed h ctrl pi s e Hparse) in Hpi.
      simplify_eq. by repeat constructor. }
  apply announceResponse_peer_frame in Hpi as (Hid & Hheap & _ & _).
  destruct r1 as [[]|]; simpl; try done.
  specialize (IH Hsub' s1).
  destruct (for_range ps _ s1) as [[r2 s2] t2]. simpl in *.
  apply Forall_app. split; [done|].
  apply IH; congruence.
Qed.

(** X9.  [announceResponseEvent.Apply] calls [AddPending] only for the
    event's info-hash and only for peers of the response, never for the
    Scheduler's own [peerID]; and it dials only such peers, at the IP and
    port the response gives for them, for the torrent of the control's
    dispatcher. *)
Theorem announceResponse_calls_from_list h (peers : list PeerInfo) s :
  Forall (λ a,
            match a with
            | Call_AddPending p h' _ =>
                h' = h ∧ p ≠ peerID s
                ∧ ∃ pi, pi ∈ peers ∧ NewPeerID (PeerInfo_PeerID pi) = inl p
            | Go_initOutgoingConn p ip port t =>
                p ≠ peerID s
                ∧ (∃ ctrl c, torrentControls s !! h = Some ctrl
                             ∧ heap s !! ctrl = Some c
                             ∧ t = dispatcher_Torrent (Dispatcher c))
                ∧ ∃ pi, pi ∈ peers ∧ NewPeerID (PeerInfo_PeerID pi) = inl p
                        ∧ PeerInfo_IP pi = ip ∧ PeerInfo_Port pi = port
            | _ => True
            end)
    (announceResponseEvent_Apply h peers s).2.
Proof.
  destruct (torrentControls s !! h) as [ctrl|] eqn:Hp.
  - destruct (heap s !! ctrl) as [c|] eqn:Hc.
    + rewrite (announceResponse_present h peers s ctrl c Hp Hc).
      pose proof (announceResponse_loop_from_list h ctrl c (peerID s)
                    peers peers (λ _ Hx, Hx)
                    (set_announceQueue (Ready (Dispatcher c)) s)
                    eq_refl Hc) as Hloop.
      destruct (for_range peers _ _) as [[r s'] tr]. simpl in *.
      repeat constructor.
      eapply Forall_impl; [exact Hloop|].
      intros [] Ha; try done.
      destruct Ha as (? & -> & ?). split_and!; try done. by exists ctrl, c.
    + rewrite (announceResponse_dangling h peers s ctrl Hp Hc).
      by repeat constructor.
  - rewrite (announceResponse_absent h peers s Hp). by repeat constructor.
Qed.

(** X10.  While the clock keeps one reading, a second
    [preemptionTickEvent] drops nothing more, and calls [Close] again on
    the very conns the first one closed: the tick does not take a conn out
    of the active set, that is left to the [closedConnEvent] that
    follows. *)
Theorem preemptionTick_twice s now :
  controls_exist s →
  steady now (clock s) →
  ∃ s1 tr1 s2 tr2,
    preemptionTickEvent_Apply s = (Some tt, s1, tr1)
    ∧ preemptionTickEvent_Apply s1 = (Some tt, s2, tr2)
    ∧ torrentControls s2 = torrentControls s1
    ∧ closes tr2 = closes tr1.
Proof.
  intros Hwf Hnow.
  destruct (preemptionTick_run s Hwf)
    as (s1 & tr1 & H1 & (_ & Hcfg & Hcs & _ & _ & Hheap) & _ & _ & _ & Hst1).
  destruct (Hst1 now Hnow) as (Hnow1 & Htcs1 & Hcl1).
  assert (Hkept : ∀ h p, torrentControls s1 !! h = Some p →
            ∃ c, heap s !! p = Some c ∧ ¬ idle_seeder_at now (config s) c).
  { intros h p Hp. rewrite Htcs1, drop_if_idle_lookup in Hp.
    destruct (torrentControls s !! h) as [q|] eqn:Hq; [|done].
    destruct (Hwf h q Hq) as [c Hc]. rewrite Hc in Hp.
    case_decide; [done|]. simplify_eq. by exists c. }
  assert (Hwf1 : controls_exist s1).
  { intros h p Hp. destruct (Hkept h p Hp) as (c & Hc & _).
    rewrite Hheap. by exists c. }
  destruct (preemptionTick_run s1 Hwf1)
    as (s2 & tr2 & H2 & _ & _ & _ & _ & Hst2).
  destruct (Hst2 now Hnow1) as (_ & Htcs2 & Hcl2).
  exists s1, tr1, s2, tr2. split_and!; [exact H1|exact H2| |].
  - rewrite Htcs2. apply map_eq. intros h. rewrite drop_if_idle_lookup.
    destruct (torrentControls s1 !! h) as [p|] eqn:Hp; [|done].
    destruct (Hkept h p Hp) as (c & Hc & Hnot).
    rewrite Hheap, Hc, Hcfg. by rewrite decide_False.
  - by rewrite Hcl2, Hcl1, Hcfg, Hcs.
Qed.

Lemma Run_newTorrent_incomplete_exact (t : Torrent) (errcs : list errchan) :
  ∀ s p c,
    torrentControls s !! Torrent_InfoHash t = Some p →
    heap s !! p = Some c →
    Complete c = false →
    ∃ s',
      Run (newTorrentEvent t <$> errcs) s =
        (Some tt, s',
         replicate (length errcs) (Log DebugLevel "Applying new torrent event"))
      ∧ announceQueue s' = announceQueue s
      ∧ connState s' = connState s
      ∧ torrentControls s' = torrentControls s
      ∧ heap s' = <[p := {| Dispatcher := Dispatcher c;
                            Errors := Errors c ++ errcs;
                            Complete := false |}]> (heap s).
Proof.
  induction errcs as [|e errcs IH]; intros s p c Hp Hc Hnot.
  - exists s. split_and!; try done.
    rewrite insert_id; [done|]. rewrite Hc, app_nil_r.
    destruct c. simpl in *. by subst.
  - rewrite fmap_cons.
    destruct (IH (set_heap (insert p {| Dispatcher := Dispatcher c;
                                        Errors := Errors c ++ [e];
                                        Complete := false |}) s)
                p {| Dispatcher := Dispatcher c; Errors := Errors c ++ [e];
                     Complete := false |})
      as (s' & Hrun & Haq & Hcs & Htcs & Hheap); simpl; auto.
    { apply lookup_insert_eq. }
    exists s'.
    set (rest := newTorrentEvent t <$> errcs) in *.
    split_and!; auto.
    + simpl. run.
      rewrite (newTorrent_incomplete t e s p c Hp Hc Hnot).
      by rewrite Hrun.
    + rewrite Hheap. simpl. by rewrite insert_insert_eq, <- app_assoc.
Qed.

(** X11.  However often a torrent that is not known is submitted in a
    row, one dispatcher is made for it: the factory is called once, [Add]
    and [InitCapacity] are called once, one control is entered under the
    info-hash, and the channels of all the submissions wait in it, in
    order. *)
Theorem newTorrent_repeat_one_dispatcher
    (t : Torrent) (errc : errchan) (errcs : list errchan) s :
  torrentControls s !! Torrent_InfoHash t = None →
  let h := Torrent_InfoHash t in
  let p := fresh (dom (heap s)) in
  let d := dispatcherFactory s t in
  ∃ s',
    Run (newTorrentEvent t <$> errc :: errcs) s =
      (Some tt, s',
       [Log DebugLevel "Applying new torrent event"; Call_New t; Call_Add d;
        Call_InitCapacity h]
       ++ replicate (length errcs)
            (Log DebugLevel "Applying new torrent event"))
    ∧ announceQueue s' = Add d (announceQueue s)
    ∧ connState s' = InitCapacity h (connState s)
    ∧ torrentControls s' = <[h := p]> (torrentControls s)
    ∧ heap s' = <[p := {| Dispatcher := d; Errors := errc :: errcs;
                          Complete := false |}]> (heap s).
Proof.
  intros Hno h p d.
  pose proof (newTorrent_absent t errc s Hno) as Hfirst.
  fold h p d in Hfirst.
  match type of Hfirst with _ = (_, ?x, _) => set (sa := x) in * end.
  destruct (Run_newTorrent_incomplete_exact t errcs sa p
              {| Dispatcher := d; Errors := [errc]; Complete := false |})
    as (s' & Hrun & Haq & Hcs & Htcs & Hheap).
  { apply lookup_insert_eq. }
  { apply lookup_insert_eq. }
  { done. }
  exists s'. split_and!; try done.
  - rewrite fmap_cons.
    set (rest := newTorrentEvent t <$> errcs) in *.
    simpl. run. rewrite Hfirst. by rewrite Hrun.
  - rewrite Hheap. simpl. by rewrite insert_insert_eq.
Qed.

(** X12.  Dropping an idle seeder forgets that its torrent was complete:
    when a tick has dropped the entry of a torrent, the control it pointed
    to was complete, and the next submission of the torrent is not answered
    at once but handled as a first one, with a new dispatcher from the
    factory and a new control in which the channel waits; the old control
    is left as it was. *)
Theorem newTorrent_after_drop
    (t : Torrent) (errc : errchan) s s1 tr1 p c :
  controls_exist s →
  torrentControls s !! Torrent_InfoHash t = Some p →
  heap s !! p = Some c →
  preemptionTickEvent_Apply s = (Some tt, s1, tr1) →
  torrentControls s1 !! Torrent_InfoHash t = None →
  Complete c = true
  ∧ ∃ s2 tr2 p',
      newTorrentEvent_Apply t errc s1 = (Some tt, s2, tr2)
      ∧ chan_sends tr2 = []
      ∧ Call_New t ∈ tr2
      ∧ p' ≠ p
      ∧ torrentControls s2 !! Torrent_InfoHash t = Some p'
      ∧ heap s2 !! p' = Some {| Dispatcher := dispatcherFactory s t;
                                Errors := [errc]; Complete := false |}
      ∧ heap s2 !! p = Some c.
Proof.
  intros Hwf Hp Hc Htick Hno.
  destruct (preemptionTick_run s Hwf)
    as (s0 & tr0 & H1 & (_ & _ & _ & _ & Hdf & Hheap) & _ & _ & Hsome & _).
  rewrite H1 in Htick. injection Htick as -> ->.
  split.
  { destruct (Hsome _ _ Hp) as [Hkeep|(_ & c' & Hc' & Hdone)]; [congruence|].
    by simplify_eq. }
  pose proof (newTorrent_absent t errc s1 Hno) as H2.
  rewrite Hheap, Hdf in H2.
  assert (Hne : fresh (dom (heap s)) ≠ p).
  { intros Heq. apply (is_fresh (dom (heap s))). rewrite Heq.
    apply elem_of_dom. by exists c. }
  eexists _, _, (fresh (dom (heap s))).
  split_and!; [exact H2|done| |done|..]; simpl.
  - apply elem_of_cons. right. by left.
  - apply lookup_insert_eq.
  - apply lookup_insert_eq.
  - by rewrite lookup_insert_ne.
Qed.

End RunProperties.

(** ** Runs on the example data *)

#[local] Existing Instance connStateModel_more_ops.
#[local] Existing Instance announceQueueModel_next_ops.

Local Ltac controls_of_example :=
  unfold controls_exist; apply (bool_decide_unpack _); vm_compute; exact I.

(** [ex_run] from a Scheduler that knows no torrent. *)
Lemma Run_more_controls_exist_witness :
  controls_exist ex_s_unknown
  ∧ controls_exist (Run_more ex_run ex_s_unknown).1.2.
Proof.
  assert (Hwf : controls_exist ex_s_unknown) by controls_of_example.
  split; [exact Hwf|].
  apply (Run_more_controls_exist ex_run ex_s_unknown
           (Run_more ex_run ex_s_unknown).1.1
           (Run_more ex_run ex_s_unknown).1.2
           (Run_more ex_run ex_s_unknown).2 Hwf).
  by destruct (Run_more ex_run ex_s_unknown) as [[r s'] tr].
Defined.

(** An incoming handshake on a Scheduler that knows [ex_h]. *)
Lemma Apply_more_moves_witness :
  controls_step ex_s_room2
    (Apply_more (incomingHandshakeEvent 3%nat ex_handshake) ex_s_room2).1.2
  ∧ torrentControls
      (Apply_more (incomingHandshakeEvent 3%nat ex_handshake) ex_s_room2).1.2
    = torrentControls ex_s_room2
  ∧ heap
      (Apply_more (incomingHandshakeEvent 3%nat ex_handshake) ex_s_room2).1.2
    = heap ex_s_room2.
Proof.
  apply (Apply_more_moves (incomingHandshakeEvent 3%nat ex_handshake)
           ex_s_room2
           (Apply_more (incomingHandshakeEvent 3%nat ex_handshake)
              ex_s_room2).1.1
           (Apply_more (incomingHandshakeEvent 3%nat ex_handshake)
              ex_s_room2).1.2
           (Apply_more (incomingHandshakeEvent 3%nat ex_handshake)
              ex_s_room2).2).
  - controls_of_example.
  - reflexivity.
Defined.

(** [ex_run] again: the Scheduler is still peer 10, with its config and
    factory. *)
Lemma Run_more_keeps_identity_witness :
  ∃ s' tr,
    Run_more ex_run ex_s_unknown = (Some tt, s', tr)
    ∧ peerID s' = ex_self ∧ config s' = ex_config
    ∧ dispatcherFactory s' = ex_factory.
Proof.
  apply (Run_more_keeps_identity ex_run ex_s_unknown). controls_of_example.
Defined.

(** [ex_run] from a Scheduler where [ex_h] is complete: the tick of the run
    drops the entry, and the control at address 1 is still what it was. *)
Lemma complete_control_is_final_witness :
  ∃ s' tr,
    Run_more ex_run ex_s_complete = (Some tt, s', tr)
    ∧ heap s' !! 1%positive = Some (ex_ctrl [7; 8]%nat true).
Proof.
  apply (complete_control_is_final ex_run ex_s_complete 1%positive
           (ex_ctrl [7; 8]%nat true));
    [controls_of_example|reflexivity|reflexivity].
Defined.

(** [ex_run] from a Scheduler where [ex_h] has two waiters. *)
Lemma waiters_only_grow_witness :
  ∃ s' tr c',
    Run_more ex_run ex_s_waiting = (Some tt, s', tr)
    ∧ heap s' !! 1%positive = Some c'
    ∧ Dispatcher c' = ex_dispatcher
    ∧ [7; 8]%nat `prefix_of` Errors c'
    ∧ (Complete c' = false → torrentControls s' !! ex_h = Some 1%positive).
Proof.
  apply (waiters_only_grow ex_run ex_s_waiting ex_h 1%positive
           (ex_ctrl [7; 8]%nat false));
    [controls_of_example|reflexivity|reflexivity].
Defined.

(** [ex_run] again: two dials, each right after its reservation, and an
    incoming handshake that is refused and starts nothing. *)
Lemma Run_more_well_paired_witness :
  ∃ s' tr,
    Run_more ex_run ex_s_unknown = (Some tt, s', tr) ∧ well_paired tr = true.
Proof. apply Run_more_well_paired. controls_of_example. Defined.

(** A response with an entry that does not parse between two that do. *)
Lemma announceResponse_skips_unparsed_witness :
  (announceResponseEvent_Apply ex_h ([ex_peer_y] ++ ex_peer_bad :: [ex_peer_z])
     ex_s_room2).1
    = (announceResponseEvent_Apply ex_h ([ex_peer_y] ++ [ex_peer_z])
         ex_s_room2).1
  ∧ add_pending_calls
      (announceResponseEvent_Apply ex_h
         ([ex_peer_y] ++ ex_peer_bad :: [ex_peer_z]) ex_s_room2).2
    = add_pending_calls
        (announceResponseEvent_Apply ex_h ([ex_peer_y] ++ [ex_peer_z])
           ex_s_room2).2
  ∧ dials
      (announceResponseEvent_Apply ex_h
         ([ex_peer_y] ++ ex_peer_bad :: [ex_peer_z]) ex_s_room2).2
    = dials
        (announceResponseEvent_Apply ex_h ([ex_peer_y] ++ [ex_peer_z])
           ex_s_room2).2.
Proof.
  apply (announceResponse_skips_unparsed ex_h [ex_peer_y] [ex_peer_z]
           ex_peer_bad (errOther "invalid PeerID length") ex_s_room2).
  reflexivity.
Defined.

(** Two ticks on the Scheduler with three active conns. *)
Lemma preemptionTick_twice_witness :
  ∃ s1 tr1 s2 tr2,
    preemptionTickEvent_Apply ex_s_conns = (Some tt, s1, tr1)
    ∧ preemptionTickEvent_Apply s1 = (Some tt, s2, tr2)
    ∧ torrentControls s2 = torrentControls s1
    ∧ closes tr2 = closes tr1.
Proof.
  apply (preemptionTick_twice ex_s_conns 1000).
  - controls_of_example.
  - intros n. reflexivity.
Defined.

(** Three submissions of [ex_torrent] to a Scheduler that knows no
    torrent. *)
Lemma newTorrent_repeat_one_dispatcher_witness :
  ∃ s',
    Run (newTorrentEvent ex_torrent <$> [7; 8; 9]%nat) ex_s_unknown =
      (Some tt, s',
       [Log DebugLevel "Applying new torrent event"; Call_New ex_torrent;
        Call_Add (ex_factory ex_torrent); Call_InitCapacity ex_h;
        Log DebugLevel "Applying new torrent event";
        Log DebugLevel "Applying new torrent event"])
    ∧ announceQueue s' = Add (ex_factory ex_torrent) ex_queue
    ∧ connState s' = InitCapacity ex_h (ex_connState 2 [] [])
    ∧ torrentControls s' = {[ ex_h := 1%positive ]}
    ∧ heap s' = {[ 1%positive :=
                     {| Dispatcher := ex_factory ex_torrent;
                        Errors := [7; 8; 9]%nat; Complete := false |} ]}.
Proof.
  apply (newTorrent_repeat_one_dispatcher ex_torrent 7%nat [8; 9]%nat
           ex_s_unknown).
  reflexivity.
Defined.

(** [ex_h] is complete and idle: the tick drops it, and the submission
    that follows waits in a new control at address 2. *)
Lemma newTorrent_after_drop_witness :
  torrentControls (preemptionTickEvent_Apply ex_s_complete).1.2 !! ex_h = None
  ∧ ∃ s2 tr2 p',
      newTorrentEvent_Apply ex_torrent 9%nat
        (preemptionTickEvent_Apply ex_s_complete).1.2 = (Some tt, s2, tr2)
      ∧ chan_sends tr2 = []
      ∧ Call_New ex_torrent ∈ tr2
      ∧ p' ≠ 1%positive
      ∧ torrentControls s2 !! ex_h = Some p'
      ∧ heap s2 !! p' = Some {| Dispatcher := ex_factory ex_torrent;
                                Errors := [9%nat]; Complete := false |}
      ∧ heap s2 !! 1%positive = Some (ex_ctrl [7; 8]%nat true).
Proof.
  assert (Hno : torrentControls (preemptionTickEvent_Apply ex_s_complete).1.2
                  !! ex_h = None) by (vm_compute; reflexivity).
  split; [exact Hno|].
  apply (newTorrent_after_drop ex_torrent 9%nat ex_s_complete
           (preemptionTickEvent_Apply ex_s_complete).1.2
           (preemptionTickEvent_Apply ex_s_complete).2
           1%positive (ex_ctrl [7; 8]%nat true));
    [controls_of_example|reflexivity|reflexivity|vm_compute; reflexivity
    |exact Hno].
Defined.

(** The trace of [ex_run]: who is dialled and who is signalled. *)
Example ex_run_trace :
  (Run_more ex_run ex_s_unknown).2 =
    (Core <$>
       [Log DebugLevel "Applying new torrent event"; Call_New ex_torrent;
        Call_Add (ex_factory ex_torrent); Call_InitCapacity ex_h;
        Log DebugLevel "Applying new torrent event";
        Log DebugLevel "Applying announce tick event"])
    ++ [Call_Next (Some (ex_factory ex_torrent));
        Core (Log DebugLevel "Announcing");
        Go_announce (ex_factory ex_torrent)]
    ++ (Core <$>
       [Log DebugLevel "Applying announce response event";
        Call_Ready (ex_factory ex_torrent);
        Call_AddPending 11%N ex_h None;
        Go_initOutgoingConn 11%N "10.0.0.2" 6882 ex_torrent;
        Call_AddPending 12%N ex_h None;
        Go_initOutgoingConn 12%N "10.0.0.3" 6883 ex_torrent;
        Log DebugLevel "Applying incoming handshake event";
        Call_AddPending 14%N ex_h (Some errTorrentAtCapacity);
        Log ErrorLevel "Rejecting incoming handshake: %s"])
    ++ [NetConn_Close 3%nat;
        Core (Log DebugLevel "Applying failed handshake event");
        Call_DeletePending 14%N ex_h]
    ++ (Core <$>
       [Call_Blacklist 14%N ex_h None;
        Log DebugLevel "Applying announce failure event";
        Call_Ready (ex_factory ex_torrent);
        Log DebugLevel "Applying completed dispatcher event";
        Call_Done (ex_factory ex_torrent);
        Chan_send_nil 7%nat; Chan_send_nil 8%nat;
        Log DebugLevel "Applying new torrent event"; Chan_send_nil 9%nat;
        Log DebugLevel "Applying preemption tick event"; Call_ActiveConns;
        Log DebugLevel "Applying cleanup blacklist event"])
    ++ [Call_DeleteStaleBlacklistEntries].
Proof. vm_compute. reflexivity. Qed.
